(** * Audio-File-Tools-Bot: timecode parsing and the audio request handler

    A shallow embedding of [src/bot.js] (the bot with trimming) and of the
    older copy of it without trimming, together with the properties that the
    specification states about them.

    JavaScript strings are sequences of UTF-16 code units; they are modelled
    as [list N].  The two regular expressions of the program are written as
    terms of a small regular-expression syntax and run by a backtracking
    matcher that follows the ECMAScript pattern semantics (priority order of
    the alternatives, greedy quantifiers, word-boundary assertion, capture
    groups, leftmost match of [exec]). *)

From Stdlib Require Import String Ascii.
From Stdlib Require Import List NArith ZArith Bool Arith Lia.
Import ListNotations.

Set Implicit Arguments.

(* ================================================================== *)
(** ** JavaScript strings *)

Definition code_unit := N.
Definition jsstring := list code_unit.

(** An ASCII literal of the source, as a JavaScript string. *)
Definition js (s : string) : jsstring :=
  map N_of_ascii (list_ascii_of_string s).

Definition between (lo hi c : N) : bool := (lo <=? c)%N && (c <=? hi)%N.

(** [\d]: the ten ASCII digits. *)
Definition is_digit (c : code_unit) : bool := between 48 57 c.

(** [\w] (no [u], no [i] flag): ASCII letters, digits and underscore. *)
Definition is_word (c : code_unit) : bool :=
  between 97 122 c || between 65 90 c || between 48 57 c || (c =? 95)%N.

(** [\s]: WhiteSpace and LineTerminator code points of ECMAScript. *)
Definition is_space (c : code_unit) : bool :=
  between 9 13 c || (c =? 32)%N || (c =? 160)%N || (c =? 5760)%N
  || between 8192 8202 c || (c =? 8232)%N || (c =? 8233)%N
  || (c =? 8239)%N || (c =? 8287)%N || (c =? 12288)%N || (c =? 65279)%N.

Definition colon : code_unit := 58%N.
Definition dot : code_unit := 46%N.

(** Canonicalize of a case-insensitive, non-unicode pattern: the code unit's
    upper-case form.  ASCII letters are mapped exactly.  A code unit of 128
    or more is never mapped below 128 by Canonicalize, and the patterns of
    this program contain ASCII characters only, so such code units are left
    as they are: the comparison with a pattern character is unchanged. *)
Definition canonicalize (c : code_unit) : code_unit :=
  if between 97 122 c then (c - 32)%N else c.

(** [String.prototype.startsWith]. *)
Fixpoint startsWith (s p : jsstring) : bool :=
  match p, s with
  | [], _ => true
  | _ :: _, [] => false
  | a :: p', b :: s' => (a =? b)%N && startsWith s' p'
  end.

(* ================================================================== *)
(** ** Regular expressions *)

Module RegExp.

Inductive regex : Type :=
| Eps                                        (* empty pattern *)
| Cls (p : code_unit -> bool)                (* one code unit of a class *)
| WordB                                      (* \b *)
| Eoi                                        (* $ without the m flag *)
| Seq (r1 r2 : regex)
| Alt (r1 r2 : regex)                        (* r1|r2 *)
| Rep (lo : nat) (hi : option nat) (r : regex)   (* greedy {lo,hi} *)
| Grp (n : nat) (r : regex).                 (* capturing group n *)

(** A match state: the code units already passed (nearest first), those
    still ahead, and the captures made so far (latest first). *)
Record mstate : Type := MState {
  passed : list code_unit;
  ahead : jsstring;
  caps : list (nat * jsstring)
}.

Definition is_word_opt (o : option code_unit) : bool :=
  match o with Some c => is_word c | None => false end.

(** IsWordChar(e-1) and IsWordChar(e). *)
Definition word_before (x : mstate) : bool := is_word_opt (hd_error (passed x)).
Definition word_after (x : mstate) : bool := is_word_opt (hd_error (ahead x)).

(** The text between two states of one run. *)
Definition consumed (x y : mstate) : jsstring :=
  firstn (length (ahead x) - length (ahead y)) (ahead x).

Definition capture (n : nat) (x y : mstate) : mstate :=
  MState (passed y) (ahead y) ((n, consumed x y) :: caps y).

Definition dec_hi (hi : option nat) : option nat :=
  match hi with Some h => Some (pred h) | None => None end.

Definition hi_is_zero (hi : option nat) : bool :=
  match hi with Some 0 => true | _ => false end.

(** RepeatMatcher, greedy: all the ways to go on from [x], first with one
    more iteration of [step], then without.  Once [lo] is used up an
    iteration that consumes nothing is refused, so every further iteration
    shortens the text ahead and [lo] plus its length, plus one, bounds the
    depth of the recursion: that is the [fuel] [run] gives.  (The captures
    of groups inside the repeated pattern are not reset between iterations;
    no pattern of this program has a group under a quantifier.) *)
Fixpoint repeat_matcher (step : mstate -> list mstate) (fuel lo : nat)
         (hi : option nat) (x : mstate) : list mstate :=
  match fuel with
  | 0 => []
  | S fuel' =>
      if hi_is_zero hi then [x]
      else
        let again :=
          flat_map
            (fun y =>
               if (lo =? 0) && (length (ahead y) =? length (ahead x))
               then []
               else repeat_matcher step fuel' (pred lo) (dec_hi hi) y)
            (step x) in
        if lo =? 0 then again ++ [x] else again
  end.

(** The end states of the pattern started at [x], in the order in which
    the backtracking matcher tries them. *)
Fixpoint run (r : regex) : mstate -> list mstate :=
  match r with
  | Eps => fun x => [x]
  | Cls p => fun x =>
      match ahead x with
      | c :: t => if p c then [MState (c :: passed x) t (caps x)] else []
      | [] => []
      end
  | WordB => fun x => if xorb (word_before x) (word_after x) then [x] else []
  | Eoi => fun x => match ahead x with [] => [x] | _ :: _ => [] end
  | Seq r1 r2 => fun x => flat_map (run r2) (run r1 x)
  | Alt r1 r2 => fun x => run r1 x ++ run r2 x
  | Rep lo hi r' => fun x =>
      repeat_matcher (run r') (S (lo + length (ahead x))) lo hi x
  | Grp n r' => fun x => map (capture n x) (run r' x)
  end.

(** RegExpBuiltinExec with lastIndex 0 and no [g]/[y] flag: the match is
    tried at index 0, 1, ... up to the length of the string. *)
Fixpoint exec_from (r : regex) (before after : list code_unit) : option (mstate * mstate) :=
  let x := MState before after [] in
  match run r x with
  | y :: _ => Some (x, y)
  | [] =>
      match after with
      | [] => None
      | c :: after' => exec_from r (c :: before) after'
      end
  end.

Fixpoint lookup_cap (n : nat) (l : list (nat * jsstring)) : option jsstring :=
  match l with
  | [] => None
  | (k, s) :: l' => if k =? n then Some s else lookup_cap n l'
  end.

(** The match array: element 0 is the matched text, element [n] the text
    of group [n], or undefined ([None]) when the group took no part. *)
Record match_array : Type := MatchArray {
  index : nat;
  whole : jsstring;
  groups : list (nat * jsstring)
}.

Definition group (m : match_array) (n : nat) : option jsstring :=
  lookup_cap n (groups m).

(** [String.prototype.match] with a regular expression without [g]. *)
Definition string_match (s : jsstring) (r : regex) : option match_array :=
  match exec_from r [] s with
  | Some (x, y) =>
      Some (MatchArray (length (passed x)) (consumed x y) (caps y))
  | None => None
  end.

(** A literal character. *)
Definition Chr (c : code_unit) : regex := Cls (N.eqb c).
(** A literal character under the [i] flag. *)
Definition ChrI (c : code_unit) : regex :=
  Cls (fun d => (canonicalize d =? canonicalize c)%N).

Fixpoint seqs (l : list regex) : regex :=
  match l with
  | [] => Eps
  | [r] => r
  | r :: l' => Seq r (seqs l')
  end.

Fixpoint alts (l : list regex) : regex :=
  match l with
  | [] => Eps
  | [r] => r
  | r :: l' => Alt r (alts l')
  end.

(** A literal word under the [i] flag. *)
Definition LitI (s : jsstring) : regex := seqs (map ChrI s).

End RegExp.
Import RegExp.

(* ================================================================== *)
(** ** Numbers and values *)

(** The numbers this program computes with: NaN and the integers
    (timecodes are whole seconds). *)
Inductive number : Type :=
| NaN
| Fin (z : Z).

Definition isNaN (n : number) : bool :=
  match n with NaN => true | Fin _ => false end.

(** [a < b] and [a <= b]; any comparison with NaN is false. *)
Definition num_lt (a b : number) : bool :=
  match a, b with Fin x, Fin y => (x <? y)%Z | _, _ => false end.
Definition num_le (a b : number) : bool :=
  match a, b with Fin x, Fin y => (x <=? y)%Z | _, _ => false end.
Definition num_sub (a b : number) : number :=
  match a, b with Fin x, Fin y => Fin (x - y) | _, _ => NaN end.

Definition digit_value (c : code_unit) : Z := Z.of_N (c - 48).

Definition decimal (s : jsstring) : Z :=
  fold_left (fun acc c => (10 * acc + digit_value c)%Z) s 0%Z.

Fixpoint drop_spaces (s : jsstring) : jsstring :=
  match s with
  | c :: s' => if is_space c then drop_spaces s' else s
  | [] => []
  end.

Definition trim_spaces (s : jsstring) : jsstring :=
  rev (drop_spaces (rev (drop_spaces s))).

(** [Number(v)] for [v] undefined or a string.  After white space is
    trimmed, the empty string is 0 and a run of decimal digits is its value
    (exact as long as it is below 2^53; a captured group has four digits at
    most); the other numeric literals (sign, fraction, exponent, radix
    prefix, Infinity) are not decoded and are taken as NaN here. *)
Definition Number (v : option jsstring) : number :=
  match v with
  | None => NaN
  | Some s =>
      let t := trim_spaces s in
      if forallb is_digit t then Fin (decimal t) else NaN
  end.

(* ================================================================== *)
(** ** Completions *)

Inductive error_message : Type :=
| CannotConvertTimecodes   (* 'Не удалось преобразовать таймкоды в числа.' *)
| EndMustExceedStart       (* 'Конечное время должно быть больше начального.' *)
| InvalidTrimInterval      (* 'Неверный интервал для обрезки аудио.' *)
| UnexpectedParseFailure   (* 'Неожиданная ошибка при разборе таймкодов: ...' *)
| AbsentAttachment.        (* TypeError: a property of undefined is read *)

(** What is thrown: the program's own error class, a plain [Error], or the
    failure of an external call (the one logged at position [at_]). *)
Inductive exn : Type :=
| TimecodeParseError (m : error_message)
| Error (m : error_message)
| ExternalFailure (at_ : nat).

Inductive completion (A : Type) : Type :=
| Return (a : A)
| Throw (e : exn).
Arguments Return {A} a.
Arguments Throw {A} e.

(* ================================================================== *)
(** ** The timecode parser *)

(** A property value of the trim range: a number or undefined. *)
Inductive value : Type :=
| VUndefined
| VNumber (n : number).

Record TrimRange : Type := mkTrimRange {
  start : value;
  end_ : value
}.

(** [/\b(\d{1,4})\s*:\s*(\d{1,4})\b/] *)
Definition timecode_re : regex :=
  seqs [ WordB;
         Grp 1 (Rep 1 (Some 4) (Cls is_digit));
         Rep 0 None (Cls is_space);
         Chr colon;
         Rep 0 None (Cls is_space);
         Grp 2 (Rep 1 (Some 4) (Cls is_digit));
         WordB ].

(** [rawText] is [None] when the argument is undefined or null. *)
Definition parseTimecodes (rawText : option jsstring) : completion (option TrimRange) :=
  match rawText with
  | None => Return None
  | Some [] => Return None
  | Some ((_ :: _) as text) =>
      match string_match text timecode_re with
      | None => Return None
      | Some m =>
          let start := Number (group m 1) in
          let end_ := Number (group m 2) in
          if isNaN start || isNaN end_ then
            Throw (TimecodeParseError CannotConvertTimecodes)
          else if num_lt start (Fin 0) || num_le end_ start then
            Throw (TimecodeParseError EndMustExceedStart)
          else Return (Some (mkTrimRange (VNumber start) (VNumber end_)))
      end
  end.

(* ================================================================== *)
(** ** The outside world and the log of calls *)

(** The texts sent to the user. *)
Inductive reply_text : Type :=
| Greeting            (* 'Отправь аудиофайл, и я верну готовое голосовое сообщение.' *)
| TimecodeHint        (* 'Не удалось понять таймкоды. Используй формат ...' *)
| TimecodeTrouble     (* 'Произошла ошибка при разборе таймкодов. Попробуй позже.' *)
| ProcessingFailed    (* 'Не получилось обработать файл. Попробуй ещё раз позже.' *)
| GenericFailure.     (* 'Случилась ошибка. Попробуй повторить позже.' *)

(** The places that write to [console.error]. *)
Inductive log_tag : Type :=
| ParseAudio | ParseDocument | HandleAudio | HandleDocument.

(** A fluent-ffmpeg command as the chained calls leave it. *)
Record FfmpegCommand : Type := mkCommand {
  input : jsstring;
  startTime : option number;
  duration : option number;
  outputOptions : list jsstring;
  format : option jsstring
}.

Definition ffmpeg (inputPath : jsstring) : FfmpegCommand :=
  mkCommand inputPath None None [] None.
Definition setStartTime (t : number) (c : FfmpegCommand) : FfmpegCommand :=
  mkCommand (input c) (Some t) (duration c) (outputOptions c) (format c).
Definition setDuration (d : number) (c : FfmpegCommand) : FfmpegCommand :=
  mkCommand (input c) (startTime c) (Some d) (outputOptions c) (format c).
Definition addOutputOptions (l : list jsstring) (c : FfmpegCommand) : FfmpegCommand :=
  mkCommand (input c) (startTime c) (duration c) (outputOptions c ++ l) (format c).
Definition setFormat (f : jsstring) (c : FfmpegCommand) : FfmpegCommand :=
  mkCommand (input c) (startTime c) (duration c) (outputOptions c) (Some f).

(** The calls that leave the program. *)
Inductive event : Type :=
| Mkdir (path : jsstring)                 (* fsPromises.mkdir(path, { recursive: true }) *)
| GetFileLink (fileId : jsstring)         (* ctx.telegram.getFileLink *)
| AxiosGet (url : jsstring)               (* axios.get(url, { responseType: 'stream' }) *)
| Pipeline (destination : jsstring)       (* pipeline(response.data, fs.createWriteStream(destination)) *)
| SendChatAction (action : jsstring)      (* ctx.sendChatAction *)
| FfmpegSave (command : FfmpegCommand) (outputPath : jsstring)   (* command.save(outputPath) *)
| ReplyWithVoice (source : jsstring)      (* ctx.replyWithVoice({ source: fs.createReadStream(source) }) *)
| Unlink (path : jsstring)                (* fsPromises.unlink *)
| Reply (text : reply_text)               (* ctx.reply *)
| ConsoleError (tag : log_tag).           (* console.error *)

(** What the program does not decide: the temporary directory of the
    system, [path.extname], the [`${Date.now()}-${crypto.randomUUID()}`]
    drawn at the n-th call of [buildTempPath], the link of a file, and
    whether the call logged at a position succeeds. *)
Record World : Type := mkWorld {
  os_tmpdir : jsstring;
  path_extname : jsstring -> jsstring;
  fresh_name : nat -> jsstring;
  file_link : jsstring -> jsstring;
  succeeds : nat -> event -> bool
}.

Record Store : Type := mkStore {
  log : list event;
  drawn : nat
}.

Definition IO (A : Type) : Type := Store -> Store * completion A.

Definition ret {A : Type} (a : A) : IO A := fun s => (s, Return a).
Definition throw {A : Type} (e : exn) : IO A := fun s => (s, Throw e).

Definition bind {A B : Type} (m : IO A) (k : A -> IO B) : IO B :=
  fun s =>
    match m s with
    | (s1, Return a) => k a s1
    | (s1, Throw e) => (s1, Throw e)
    end.

Notation "x <- m ;; k" := (bind m (fun x => k))
  (at level 61, m at next level, right associativity).
Notation "m ;; k" := (bind m (fun _ => k))
  (at level 61, right associativity).

(** [try { body } catch (error) { handler }] *)
Definition try_catch {A : Type} (body : IO A) (handler : exn -> IO A) : IO A :=
  fun s =>
    match body s with
    | (s1, Return a) => (s1, Return a)
    | (s1, Throw e) => handler e s1
    end.

(** [try { body } finally { cleanup }]: the completion of the body stands
    unless the cleanup throws. *)
Definition try_finally {A : Type} (body : IO A) (cleanup : IO unit) : IO A :=
  fun s =>
    match body s with
    | (s1, r) =>
        match cleanup s1 with
        | (s2, Return _) => (s2, r)
        | (s2, Throw e) => (s2, Throw e)
        end
    end.

(** An external call: logged, then settled by the world. *)
Definition call (w : World) (e : event) : IO unit :=
  fun s =>
    (mkStore (log s ++ [e]) (drawn s),
     if succeeds w (length (log s)) e then Return tt
     else Throw (ExternalFailure (length (log s)))).

(** [console.error] does not fail. *)
Definition console_error (tag : log_tag) : IO unit :=
  fun s => (mkStore (log s ++ [ConsoleError tag]) (drawn s), Return tt).

(** [promise.catch(() => {})] *)
Definition swallow (m : IO unit) : IO unit := try_catch m (fun _ => ret tt).

(** [Promise.allSettled]: the promises were started in the order of the
    array; the result never rejects. *)
Fixpoint allSettled (l : list (IO unit)) : IO unit :=
  match l with
  | [] => ret tt
  | m :: l' => try_catch m (fun _ => ret tt) ;; allSettled l'
  end.

(** [a || b] on strings and on a property that may be undefined. *)
Definition or_str (a b : jsstring) : jsstring :=
  match a with [] => b | _ :: _ => a end.
Definition or_undef (a : option jsstring) (b : jsstring) : jsstring :=
  match a with Some (c :: t) => c :: t | _ => b end.

(** [path.join(dir, name)] for a name without separators. *)
Definition path_join (dir name : jsstring) : jsstring := dir ++ js "/" ++ name.

(* ================================================================== *)
(** ** bot.js: files and transcoding *)

Definition tmpRoot (w : World) : jsstring := path_join (os_tmpdir w) (js "audio-tools-bot").

Definition ensureTmpDir (w : World) : IO unit := call w (Mkdir (tmpRoot w)).

Definition buildTempPath (w : World) (ext : jsstring) : IO jsstring :=
  let suffix :=
    if startsWith ext (js ".") then ext
    else match ext with [] => [] | _ :: _ => js "." ++ ext end in
  fun s =>
    (mkStore (log s) (S (drawn s)),
     Return (path_join (tmpRoot w) (fresh_name w (drawn s) ++ suffix))).

Definition downloadFile (w : World) (url destinationPath : jsstring) : IO unit :=
  call w (AxiosGet url) ;;
  call w (Pipeline destinationPath).

Definition voice_options : list jsstring :=
  [js "-acodec libopus"; js "-b:a 48k"; js "-ac 1"; js "-ar 48000"; js "-vn"].

Definition typeof_number (v : value) : bool :=
  match v with VNumber _ => true | VUndefined => false end.

(** The promise resolves on the 'end' event of the command and rejects on
    its 'error' event, or at once when the interval is empty. *)
Definition convertToVoice (w : World) (inputPath outputPath : jsstring)
           (trimRange : option TrimRange) : IO unit :=
  let settings : completion (value * value) :=
    match trimRange with
    | Some range =>
        let startTime := if typeof_number (start range) then start range else VUndefined in
        match end_ range with
        | VNumber e =>
            let base := match start range with VNumber s => s | VUndefined => Fin 0 end in
            let calculatedDuration := num_sub e base in
            if num_le calculatedDuration (Fin 0) then Throw (Error InvalidTrimInterval)
            else Return (startTime, VNumber calculatedDuration)
        | VUndefined => Return (startTime, VUndefined)
        end
    | None => Return (VUndefined, VUndefined)
    end in
  match settings with
  | Throw e => throw e
  | Return (startTime, duration) =>
      let command := ffmpeg inputPath in
      let command :=
        match startTime with VNumber t => setStartTime t command | VUndefined => command end in
      let command :=
        match duration with VNumber d => setDuration d command | VUndefined => command end in
      call w (FfmpegSave (setFormat (js "ogg") (addOutputOptions voice_options command))
                         outputPath)
  end.

Definition processAudio (w : World) (fileId filenameHint : jsstring)
           (trimRange : option TrimRange) : IO unit :=
  ensureTmpDir w ;;
  let inputExt := or_str (path_extname w (or_str filenameHint [])) (js ".tmp") in
  inputPath <- buildTempPath w inputExt ;;
  outputPath <- buildTempPath w (js ".ogg") ;;
  try_finally
    (call w (GetFileLink fileId) ;;
     downloadFile w (file_link w fileId) inputPath ;;
     call w (SendChatAction (js "record_voice")) ;;
     convertToVoice w inputPath outputPath trimRange ;;
     call w (ReplyWithVoice outputPath))
    (allSettled [swallow (call w (Unlink inputPath));
                 swallow (call w (Unlink outputPath))]).

(* ================================================================== *)
(** ** bot.js: messages and handlers *)

(** A Telegram audio or document attachment. *)
Record Attachment : Type := mkAttachment {
  file_id : jsstring;
  file_unique_id : jsstring;
  file_name : option jsstring;
  mime_type : option jsstring
}.

Record Message : Type := mkMessage {
  caption : option jsstring;
  text : option jsstring;
  audio : option Attachment;
  document : option Attachment
}.

Definition audio_extensions : list jsstring :=
  [js "mp3"; js "wav"; js "m4a"; js "flac"; js "aac"; js "ogg"; js "oga"].

(** [/\.(mp3|wav|m4a|flac|aac|ogg|oga)$/i] *)
Definition audio_ext_re : regex :=
  seqs [ ChrI dot; Grp 1 (alts (map LitI audio_extensions)); Eoi ].

Definition isAudioDocument (document : option Attachment) : bool :=
  match document with
  | None => false
  | Some document =>
      if match mime_type document with
         | Some (c :: m) => startsWith (c :: m) (js "audio/")
         | _ => false
         end
      then true
      else
        match file_name document with
        | Some (c :: n) =>
            match string_match (c :: n) audio_ext_re with
            | Some _ => true
            | None => false
            end
        | _ => false
        end
  end.

Definition extractTimecodesFromMessage (message : Message) : completion (option TrimRange) :=
  let raw := or_undef (caption message) (or_undef (text message) []) in
  match parseTimecodes (Some raw) with
  | Return r => Return r
  | Throw (TimecodeParseError m) => Throw (TimecodeParseError m)
  | Throw _ => Throw (Error UnexpectedParseFailure)
  end.

(** The attachment is read inside the second [try]: a message without one
    ends in its [catch]. *)
Definition process_attachment (w : World) (a : option Attachment)
           (trimRange : option TrimRange) : IO unit :=
  match a with
  | Some a => processAudio w (file_id a) (or_undef (file_name a) (file_unique_id a)) trimRange
  | None => throw (Error AbsentAttachment)
  end.

(** [bot.on('audio', ...)] *)
Definition on_audio (w : World) (message : Message) : IO unit :=
  match extractTimecodesFromMessage message with
  | Throw (TimecodeParseError _) => call w (Reply TimecodeHint)
  | Throw _ => console_error ParseAudio ;; call w (Reply TimecodeTrouble)
  | Return trimRange =>
      try_catch (process_attachment w (audio message) trimRange)
                (fun _ => console_error HandleAudio ;; call w (Reply ProcessingFailed))
  end.

(** [bot.on('document', ...)]; [next] is the rest of the middleware chain. *)
Definition on_document (w : World) (message : Message) (next : option (IO unit)) : IO unit :=
  if negb (isAudioDocument (document message)) then
    match next with
    | Some next => next
    | None => ret tt
    end
  else
    match extractTimecodesFromMessage message with
    | Throw (TimecodeParseError _) => call w (Reply TimecodeHint)
    | Throw _ => console_error ParseDocument ;; call w (Reply TimecodeTrouble)
    | Return trimRange =>
        try_catch (process_attachment w (document message) trimRange)
                  (fun _ => console_error HandleDocument ;; call w (Reply ProcessingFailed))
    end.

(* ================================================================== *)
(** ** The older copy of the bot, without trimming *)

Module Part000.

Definition convertToVoice (w : World) (inputPath outputPath : jsstring) : IO unit :=
  call w (FfmpegSave (setFormat (js "ogg") (addOutputOptions voice_options (ffmpeg inputPath)))
                     outputPath).

Definition processAudio (w : World) (fileId filenameHint : jsstring) : IO unit :=
  ensureTmpDir w ;;
  let inputExt := or_str (path_extname w (or_str filenameHint [])) (js ".tmp") in
  inputPath <- buildTempPath w inputExt ;;
  outputPath <- buildTempPath w (js ".ogg") ;;
  try_finally
    (call w (GetFileLink fileId) ;;
     downloadFile w (file_link w fileId) inputPath ;;
     call w (SendChatAction (js "record_voice")) ;;
     convertToVoice w inputPath outputPath ;;
     call w (ReplyWithVoice outputPath))
    (allSettled [swallow (call w (Unlink inputPath));
                 swallow (call w (Unlink outputPath))]).

End Part000.

(* ================================================================== *)
(** ** Where the timecode pattern matches *)

Definition first_cu (s : jsstring) : option code_unit := hd_error s.
Definition last_cu (s : jsstring) : option code_unit := hd_error (rev s).

Definition is_digit_opt (o : option code_unit) : bool :=
  match o with Some c => is_digit c | None => false end.

(** One to four decimal digits. *)
Definition token (d : jsstring) : Prop :=
  forallb is_digit d = true /\ 1 <= length d <= 4.

Definition blank (w : jsstring) : Prop := forallb is_space w = true.

(** The pattern of the code, read off the regular expression: the text is
    [pre ++ d1 ++ w1 ++ ":" ++ w2 ++ d2 ++ post], the digits are delimited
    by word boundaries. *)
Definition timecode_at (text pre d1 w1 w2 d2 post : jsstring) : Prop :=
  text = pre ++ d1 ++ w1 ++ colon :: w2 ++ d2 ++ post /\
  token d1 /\ blank w1 /\ blank w2 /\ token d2 /\
  is_word_opt (last_cu pre) = false /\ is_word_opt (first_cu post) = false.

(** The leftmost such place. *)
Definition first_timecode (text pre d1 w1 w2 d2 post : jsstring) : Prop :=
  timecode_at text pre d1 w1 w2 d2 post /\
  forall pre' d1' w1' w2' d2' post',
    timecode_at text pre' d1' w1' w2' d2' post' -> length pre <= length pre'.


(** The pattern as the specification words it: two integers of one to four
    digits around a colon, with optional white space, "not part of a longer
    digit run". *)
Definition spec_timecode_at (text pre d1 w1 w2 d2 post : jsstring) : Prop :=
  text = pre ++ d1 ++ w1 ++ colon :: w2 ++ d2 ++ post /\
  token d1 /\ blank w1 /\ blank w2 /\ token d2 /\
  is_digit_opt (last_cu pre) = false /\ is_digit_opt (first_cu post) = false.

(** The record [{ start, end }] of two whole numbers. *)
Definition range (a b : Z) : TrimRange :=
  mkTrimRange (VNumber (Fin a)) (VNumber (Fin b)).

(* ================================================================== *)
(** ** Notions used in the proofs *)

Definition within (hi : option nat) (n : nat) : Prop :=
  match hi with Some h => n <= h | None => True end.

(** The states from which [exec_from] tries the pattern, and the one it
    stops at. *)
Definition at_split (l pre post : list code_unit) : mstate :=
  MState (rev pre ++ l) post [].

Definition here (l s d1 w1 w2 d2 rest : jsstring) : Prop :=
  s = d1 ++ w1 ++ colon :: w2 ++ d2 ++ rest /\
  token d1 /\ blank w1 /\ blank w2 /\ token d2 /\
  is_word_opt (hd_error l) = false /\ is_word_opt (hd_error rest) = false.

(** "The next code unit is not of the class." *)
Definition stops (p : code_unit -> bool) (s : jsstring) : Prop :=
  match s with [] => True | c :: _ => p c = false end.

Definition matched (d1 w1 w2 d2 : jsstring) : jsstring :=
  d1 ++ w1 ++ colon :: w2 ++ d2.

Definition end_state (x : mstate) (d1 w1 w2 d2 rest : jsstring) : mstate :=
  MState (rev (matched d1 w1 w2 d2) ++ passed x) rest
         ((2, d2) :: (1, d1) :: caps x).

Definition match_of (pre d1 w1 w2 d2 : jsstring) : match_array :=
  MatchArray (length pre) (matched d1 w1 w2 d2) [(2, d2); (1, d1)].

Definition verdict (a b : Z) : completion (option TrimRange) :=
  if (b <=? a)%Z then Throw (TimecodeParseError EndMustExceedStart)
  else Return (Some (mkTrimRange (VNumber (Fin a)) (VNumber (Fin b)))).

(** The world [w] with the outcomes of the deletions replaced by [f]. *)
Definition with_unlink_outcomes (w : World) (f : nat -> jsstring -> bool) : World :=
  mkWorld (os_tmpdir w) (path_extname w) (fresh_name w) (file_link w)
          (fun n e => match e with Unlink p => f n p | _ => succeeds w n e end).

(** Between the creation of the directory and the cleanup, the only files
    written or read are the two temporary files, and nothing is deleted. *)
Definition uses_only (inputPath outputPath : jsstring) (e : event) : Prop :=
  match e with
  | GetFileLink _ | AxiosGet _ | SendChatAction _ => True
  | Pipeline p => p = inputPath
  | FfmpegSave c p => input c = inputPath /\ p = outputPath
  | ReplyWithVoice p => p = outputPath
  | Mkdir _ | Unlink _ | Reply _ | ConsoleError _ => False
  end.

(** Whatever the store, the computation only adds events of a kind. *)
Definition emits {A : Type} (P : event -> Prop) (m : IO A) : Prop :=
  forall s, exists mid,
    log (fst (m s)) = log s ++ mid /\ drawn (fst (m s)) = drawn s /\ Forall P mid.

(** A world in which every call succeeds, and one in which the download
    breaks off and no file can be deleted. *)
Definition calm : World :=
  mkWorld (js "/tmp") (fun _ => js ".mp3")
          (fun n => js "1700000000000-0b5e" ++ repeat 48%N n)
          (fun id => js "https://files.example/" ++ id)
          (fun _ _ => true).

Definition rough : World :=
  mkWorld (js "/tmp") (fun _ => js ".mp3")
          (fun n => js "1700000000000-0b5e" ++ repeat 48%N n)
          (fun id => js "https://files.example/" ++ id)
          (fun _ e => match e with Pipeline _ | Unlink _ => false | _ => true end).

Definition empty_store : Store := mkStore [] 0.

Definition song : Attachment :=
  mkAttachment (js "AgAD") (js "uniq") (Some (js "song.mp3")) (Some (js "audio/mpeg")).

(** ASCII lower case of a code unit. *)
Definition lower (c : code_unit) : code_unit :=
  if between 65 90 c then (c + 32)%N else c.

(** [String.prototype.endsWith]. *)
Definition endsWith (s suffix : jsstring) : bool := startsWith (rev s) (rev suffix).

(** The two tests of the specification on a document: the MIME type starts
    with "audio/"; the file name ends with one of the extensions, read
    letter for letter ([audio_by_name]) or without regard to the case of
    ASCII letters ([audio_by_name_ci]). *)
Definition audio_by_mime (d : Attachment) : bool :=
  match mime_type d with
  | Some m => startsWith m (js "audio/")
  | None => false
  end.

Definition audio_by_name (d : Attachment) : bool :=
  match file_name d with
  | Some n => existsb (fun ext => endsWith n (dot :: ext)) audio_extensions
  | None => false
  end.

Definition audio_by_name_ci (d : Attachment) : bool :=
  match file_name d with
  | Some n => existsb (fun ext => endsWith (map lower n) (dot :: ext)) audio_extensions
  | None => false
  end.

(* ================================================================== *)
(** ** The handlers of the older copy *)

(** [isAudioDocument] is the same text in both files, and so are the
    texts of the replies; the handlers of the older copy parse nothing. *)
Module Older.

Definition process_attachment (w : World) (a : option Attachment) : IO unit :=
  match a with
  | Some a => Part000.processAudio w (file_id a) (or_undef (file_name a) (file_unique_id a))
  | None => throw (Error AbsentAttachment)
  end.

(** [bot.on('audio', ...)] *)
Definition on_audio (w : World) (message : Message) : IO unit :=
  try_catch (process_attachment w (audio message))
            (fun _ => console_error HandleAudio ;; call w (Reply ProcessingFailed)).

(** [bot.on('document', ...)] *)
Definition on_document (w : World) (message : Message) (next : option (IO unit)) : IO unit :=
  if isAudioDocument (document message) then
    try_catch (process_attachment w (document message))
              (fun _ => console_error HandleDocument ;; call w (Reply ProcessingFailed))
  else
    match next with
    | Some next => next
    | None => ret tt
    end.

End Older.

(* ================================================================== *)
(** ** Notions used in the further properties *)

(** The suffix [buildTempPath] gives to a path. *)
Definition ext_suffix (ext : jsstring) : jsstring :=
  if startsWith ext (js ".") then ext
  else match ext with [] => [] | _ :: _ => js "." ++ ext end.

(** The two temporary paths of a run of [processAudio] started in [s]. *)
Definition input_path (w : World) (filenameHint : jsstring) (s : Store) : jsstring :=
  path_join (tmpRoot w)
    (fresh_name w (drawn s)
     ++ ext_suffix (or_str (path_extname w (or_str filenameHint [])) (js ".tmp"))).

Definition output_path (w : World) (s : Store) : jsstring :=
  path_join (tmpRoot w) (fresh_name w (S (drawn s)) ++ js ".ogg").

(** The command [convertToVoice] builds for the two numbers of a range. *)
Definition voice_command (inputPath : jsstring) (startTime duration : option number)
  : FfmpegCommand :=
  mkCommand inputPath startTime duration voice_options (Some (js "ogg")).

(** The calls of the body of [processAudio] when none fails; [convert] is
    the call of the transcoder, absent when the interval is refused. *)
Definition plan (w : World) (fileId inputPath outputPath : jsstring)
           (convert : list event) : list event :=
  [GetFileLink fileId; AxiosGet (file_link w fileId); Pipeline inputPath;
   SendChatAction (js "record_voice")] ++ convert ++ [ReplyWithVoice outputPath].

(** Whatever the store, the computation only adds events of a kind to the
    log (it may draw names). *)
Definition adds {A : Type} (P : event -> Prop) (m : IO A) : Prop :=
  forall s, exists mid, log (fst (m s)) = log s ++ mid /\ Forall P mid.

Definition is_reply (e : event) : bool :=
  match e with Reply _ => true | _ => false end.

(** The events of a handler that never occur: the branch for an error of
    the parser other than its own. *)
Definition not_parse_trouble (e : event) : Prop :=
  match e with
  | Reply TimecodeTrouble | ConsoleError ParseAudio | ConsoleError ParseDocument => False
  | _ => True
  end.

(** The trim a transcoder command must carry for a parsed range. *)
Definition carries_trim (trimRange : option TrimRange) (e : event) : Prop :=
  match e with
  | FfmpegSave c _ =>
      match trimRange with
      | None => startTime c = None /\ duration c = None
      | Some r =>
          exists a b, r = range a b /\ (1 <= b - a <= 9999)%Z /\
                      startTime c = Some (Fin a) /\ duration c = Some (Fin (b - a))
      end
  | _ => True
  end.

(** An all-digit text of the given bounds on its length. *)
Definition digits_within (d : jsstring) : bool :=
  (1 <=? length d) && (length d <=? 4).

(** The calls of a list that are made when each is made only after all the
    calls before it succeeded: the list up to and with the first call that
    fails.  [log0] is the log at the start. *)
Fixpoint attempted (w : World) (log0 : list event) (l : list event) : list event :=
  match l with
  | [] => []
  | e :: l' =>
      e :: (if succeeds w (length log0) e then attempted w (log0 ++ [e]) l' else [])
  end.

(** The completion of such a list of calls: the first failure, if any. *)
Fixpoint outcome (w : World) (log0 : list event) (l : list event) : completion unit :=
  match l with
  | [] => Return tt
  | e :: l' =>
      if succeeds w (length log0) e then outcome w (log0 ++ [e]) l'
      else Throw (ExternalFailure (length log0))
  end.

(** The events of [processAudio]: no text for the user, nothing on the
    console. *)
Definition processing_event (e : event) : Prop :=
  match e with
  | Reply _ | ConsoleError _ => False
  | _ => True
  end.

(** What both handlers of bot.js do with an attachment: [on_audio] with
    the audio of the message, [on_document] with a document that
    [isAudioDocument] takes for audio. *)
Definition handle (w : World) (message : Message) (a : option Attachment)
           (tag : log_tag) : IO unit :=
  match extractTimecodesFromMessage message with
  | Throw (TimecodeParseError _) => call w (Reply TimecodeHint)
  | Throw _ =>
      console_error (match tag with HandleDocument => ParseDocument | _ => ParseAudio end) ;;
      call w (Reply TimecodeTrouble)
  | Return trimRange =>
      try_catch (process_attachment w a trimRange)
                (fun _ => console_error tag ;; call w (Reply ProcessingFailed))
  end.


(* ================================================================== *)
(** ** Facts about the matcher *)


Lemma mstate_eq (x y : mstate) :
  passed x = passed y -> ahead x = ahead y -> caps x = caps y -> x = y.
Proof. destruct x, y; simpl; intros; subst; reflexivity. Qed.

(** A quantified character class takes a run of code units of the class,
    of a length within the bounds, and nothing else. *)
Lemma repeat_class_spec (p : code_unit -> bool) :
  forall fuel lo hi x y,
    lo + length (ahead x) < fuel -> within hi lo ->
    (In y (repeat_matcher (run (Cls p)) fuel lo hi x) <->
     exists w, ahead x = w ++ ahead y /\ passed y = rev w ++ passed x /\
               caps y = caps x /\ forallb p w = true /\
               lo <= length w /\ within hi (length w)).
Proof.
  induction fuel as [|fuel IH]; intros lo hi x y Hfuel Hlohi; [lia|].
  cbn [repeat_matcher].
  destruct (hi_is_zero hi) eqn:Hz.
  - destruct hi as [[|h]|]; try discriminate. simpl in Hlohi.
    split.
    + intros [<-|[]]. exists []. simpl. repeat split; auto; lia.
    + intros (w & Ha & Hp & Hc & _ & _ & Hw). simpl in Hw.
      destruct w; [|simpl in Hw; lia]. left. apply mstate_eq; auto.
  - assert (Hstep : forall c t, ahead x = c :: t -> p c = true ->
              (In y (repeat_matcher (run (Cls p)) fuel (pred lo) (dec_hi hi)
                       (MState (c :: passed x) t (caps x))) <->
               exists w, t = w ++ ahead y /\
                         passed y = rev w ++ c :: passed x /\
                         caps y = caps x /\ forallb p w = true /\
                         pred lo <= length w /\ within (dec_hi hi) (length w))).
    { intros c t Hx Hc.
      specialize (IH (pred lo) (dec_hi hi) (MState (c :: passed x) t (caps x)) y).
      simpl in IH. apply IH.
      - rewrite Hx in Hfuel. simpl in Hfuel. lia.
      - destruct hi as [[|h]|]; simpl in *; try discriminate; auto; lia. }
    assert (Hagain :
      In y (flat_map
              (fun y0 => if (lo =? 0) && (length (ahead y0) =? length (ahead x))
                         then []
                         else repeat_matcher (run (Cls p)) fuel (pred lo) (dec_hi hi) y0)
              (run (Cls p) x)) <->
      exists w, w <> [] /\ ahead x = w ++ ahead y /\ passed y = rev w ++ passed x /\
                caps y = caps x /\ forallb p w = true /\
                lo <= length w /\ within hi (length w)).
    { cbn [run]. destruct (ahead x) as [|c t] eqn:Hx.
      - simpl. split; [tauto|].
        intros (w & Hne & Ha & _). destruct w; [congruence|discriminate].
      - destruct (p c) eqn:Hc.
        + simpl. rewrite app_nil_r.
          assert (Hlen : (length t =? S (length t)) = false)
            by (apply Nat.eqb_neq; lia).
          rewrite Hlen.
          rewrite andb_false_r, (Hstep c t eq_refl Hc).
          split.
          * intros (w & Ha & Hp & Hcs & Hw & Hlo & Hhi).
            exists (c :: w). simpl. rewrite Hc, Hw, Hp, <- app_assoc. simpl.
            repeat split; auto; try congruence; try lia.
            destruct hi as [[|h]|]; simpl in *; try discriminate; auto; lia.
          * intros (w & Hne & Ha & Hp & Hcs & Hw & Hlo & Hhi).
            destruct w as [|c' w]; [congruence|].
            simpl in Ha. injection Ha as <- Ha. simpl in Hw.
            apply andb_prop in Hw as [_ Hw].
            exists w. simpl in Hp. rewrite <- app_assoc in Hp. simpl in Hp, Hlo.
            repeat split; auto; try lia.
            destruct hi as [[|h]|]; simpl in *; try discriminate; auto; lia.
        + simpl. split; [tauto|].
          intros (w & Hne & Ha & _ & _ & Hw & _).
          destruct w as [|c' w]; [congruence|].
          simpl in Ha. injection Ha as <- Ha. simpl in Hw. rewrite Hc in Hw.
          discriminate. }
    destruct (lo =? 0) eqn:Hlo0.
    + apply Nat.eqb_eq in Hlo0. rewrite in_app_iff, Hagain. split.
      * intros [(w & _ & H)|[<-|[]]]; [exists w; exact H|].
        exists []. simpl. repeat split; auto; try lia.
        destruct hi; simpl; auto; lia.
      * intros (w & Ha & Hp & Hc & Hw & Hl & Hh).
        destruct w as [|c w].
        -- right. left. apply mstate_eq; auto.
        -- left. exists (c :: w). repeat split; auto. discriminate.
    + apply Nat.eqb_neq in Hlo0. rewrite Hagain. split.
      * intros (w & _ & H). exists w; exact H.
      * intros (w & Ha & Hp & Hc & Hw & Hl & Hh).
        exists w. repeat split; auto. destruct w; [simpl in Hl; lia|discriminate].
Qed.


Lemma run_rep_class (p : code_unit -> bool) lo hi x y :
  within hi lo ->
  (In y (run (Rep lo hi (Cls p)) x) <->
   exists w, ahead x = w ++ ahead y /\ passed y = rev w ++ passed x /\
             caps y = caps x /\ forallb p w = true /\
             lo <= length w /\ within hi (length w)).
Proof. intros H. cbn [run]. apply repeat_class_spec; auto. Qed.

Lemma run_seq r1 r2 x y :
  In y (run (Seq r1 r2) x) <-> exists m, In m (run r1 x) /\ In y (run r2 m).
Proof. cbn [run]. apply in_flat_map. Qed.

Lemma run_alt r1 r2 x y :
  In y (run (Alt r1 r2) x) <-> In y (run r1 x) \/ In y (run r2 x).
Proof. cbn [run]. apply in_app_iff. Qed.

Lemma run_grp n r x y :
  In y (run (Grp n r) x) <-> exists z, In z (run r x) /\ y = capture n x z.
Proof.
  cbn [run]. rewrite in_map_iff. split; intros (z & H1 & H2); exists z; auto.
Qed.

Lemma run_wordb x y :
  In y (run WordB x) <-> y = x /\ xorb (word_before x) (word_after x) = true.
Proof.
  cbn [run]. destruct (xorb _ _); simpl; intuition congruence.
Qed.

Lemma run_eoi x y : In y (run Eoi x) <-> y = x /\ ahead x = [].
Proof.
  cbn [run]. destruct (ahead x); simpl; intuition congruence.
Qed.

Lemma run_cls p x y :
  In y (run (Cls p) x) <->
  exists c, p c = true /\ ahead x = c :: ahead y /\
            passed y = c :: passed x /\ caps y = caps x.
Proof.
  cbn [run]. destruct (ahead x) as [|c t].
  - simpl. split; [tauto|]. intros (c & _ & H & _). discriminate.
  - destruct (p c) eqn:Hc; simpl.
    + split.
      * intros [<-|[]]. exists c. simpl. auto.
      * intros (c' & _ & H & Hp & Hcs). injection H as <- ->.
        left. apply mstate_eq; auto.
    + split; [tauto|]. intros (c' & Hc' & H & _). injection H as <- _.
      congruence.
Qed.

Lemma consumed_app x y w : ahead x = w ++ ahead y -> consumed x y = w.
Proof.
  intros H. unfold consumed. rewrite H, length_app.
  replace (length w + length (ahead y) - length (ahead y)) with (length w) by lia.
  rewrite firstn_app, firstn_all, Nat.sub_diag. simpl. apply app_nil_r.
Qed.

Lemma consumed_mk p w r c p' c' :
  consumed (MState p (w ++ r) c) (MState p' r c') = w.
Proof. apply consumed_app. reflexivity. Qed.

Lemma exec_from_some r : forall s l x y,
  exec_from r l s = Some (x, y) ->
  exists pre post, s = pre ++ post /\ x = at_split l pre post /\
    hd_error (run r x) = Some y /\
    forall pre' post', s = pre' ++ post' -> length pre' < length pre ->
                       run r (at_split l pre' post') = [].
Proof.
  induction s as [|c s IH]; intros l x y; cbn [exec_from].
  - destruct (run r (MState l [] [])) eqn:Hr; [discriminate|].
    intros H. injection H as <- <-. exists [], []. simpl.
    repeat split; auto. + rewrite Hr. reflexivity. + intros; lia.
  - destruct (run r (MState l (c :: s) [])) eqn:Hr.
    + intros H. apply IH in H as (pre & post & -> & -> & Hhd & Hmin).
      exists (c :: pre), post. unfold at_split in *. simpl.
      rewrite <- app_assoc. simpl. repeat split; auto.
      intros pre' post' Heq Hlen. destruct pre' as [|c' pre'].
      * simpl in *. subst post'. exact Hr.
      * simpl in Heq. injection Heq as <- Heq. simpl.
        rewrite <- app_assoc. simpl. apply Hmin; auto. simpl in Hlen. lia.
    + intros H. injection H as <- <-. exists [], (c :: s). simpl.
      repeat split; auto. * rewrite Hr. reflexivity. * intros; lia.
Qed.

Lemma exec_from_none r : forall s l,
  exec_from r l s = None ->
  forall pre post, s = pre ++ post -> run r (at_split l pre post) = [].
Proof.
  induction s as [|c s IH]; intros l; cbn [exec_from].
  - destruct (run r (MState l [] [])) eqn:Hr; [|discriminate].
    intros _ pre post H. symmetry in H. apply app_eq_nil in H as [-> ->].
    exact Hr.
  - destruct (run r (MState l (c :: s) [])) eqn:Hr; [|discriminate].
    intros H pre post Heq. destruct pre as [|c' pre].
    + simpl in Heq. subst post. exact Hr.
    + simpl in Heq. injection Heq as <- Heq. unfold at_split. simpl.
      rewrite <- app_assoc. simpl. apply (IH _ H); auto.
Qed.

(** The leftmost position wins: a position at which the pattern can match
    makes [exec_from] stop there or earlier. *)
Lemma exec_from_first r s l pre post y :
  s = pre ++ post ->
  hd_error (run r (at_split l pre post)) = Some y ->
  (forall pre' post', s = pre' ++ post' -> length pre' < length pre ->
                      run r (at_split l pre' post') = []) ->
  exec_from r l s = Some (at_split l pre post, y).
Proof.
  intros Hs Hhd Hmin.
  destruct (exec_from r l s) as [[x' y']|] eqn:He.
  - apply exec_from_some in He as (pre' & post' & Hs' & -> & Hhd' & Hmin').
    assert (Hlen : length pre' = length pre).
    { destruct (Nat.lt_trichotomy (length pre') (length pre)) as [H|[H|H]]; auto.
      - rewrite (Hmin _ _ Hs' H) in Hhd'. discriminate.
      - rewrite (Hmin' _ _ Hs H) in Hhd. discriminate. }
    assert (pre' = pre /\ post' = post) as [-> ->].
    { rewrite Hs in Hs'. apply app_eq_app in Hs' as [t [[H1 H2]|[H1 H2]]];
        subst; rewrite length_app in Hlen;
        (destruct t; [rewrite app_nil_r; auto | simpl in Hlen; lia]). }
    congruence.
  - rewrite (@exec_from_none r s l He pre post Hs) in Hhd. discriminate.
Qed.


(** ** The timecode pattern: uniqueness, soundness, completeness *)

Lemma digit_cases c :
  is_digit c = true -> In c [48; 49; 50; 51; 52; 53; 54; 55; 56; 57]%N.
Proof.
  unfold is_digit, between. intros H. apply andb_prop in H as [H1 H2].
  apply N.leb_le in H1, H2. simpl.
  assert (c = 48 \/ c = 49 \/ c = 50 \/ c = 51 \/ c = 52 \/ c = 53 \/
          c = 54 \/ c = 55 \/ c = 56 \/ c = 57)%N by lia.
  intuition auto.
Qed.

Ltac by_digit H :=
  apply digit_cases in H; simpl in H;
  repeat (destruct H as [H|H]; [subst; reflexivity|]); destruct H.

Lemma digit_is_word c : is_digit c = true -> is_word c = true.
Proof. intros H. by_digit H. Qed.

Lemma digit_not_space c : is_digit c = true -> is_space c = false.
Proof. intros H. by_digit H. Qed.

Lemma digit_value_range c : is_digit c = true -> (0 <= digit_value c <= 9)%Z.
Proof.
  intros H. apply digit_cases in H. simpl in H.
  repeat (destruct H as [H|H]; [subst; vm_compute; split; discriminate|]).
  destruct H.
Qed.

Lemma space_not_digit c : is_space c = true -> is_digit c = false.
Proof.
  intros H. destruct (is_digit c) eqn:Hd; auto.
  rewrite (digit_not_space _ Hd) in H. discriminate.
Qed.

Lemma maximal_run_unique (p : code_unit -> bool) :
  forall a a' b b',
    a ++ b = a' ++ b' -> forallb p a = true -> forallb p a' = true ->
    stops p b -> stops p b' -> a = a' /\ b = b'.
Proof.
  induction a as [|c a IH]; intros [|c' a'] b b' Heq Ha Ha' Hb Hb'; simpl in *.
  - auto.
  - subst b. simpl in Hb. apply andb_prop in Ha' as [Hc _]. congruence.
  - subst b'. simpl in Hb'. apply andb_prop in Ha as [Hc _]. congruence.
  - injection Heq as <- Heq.
    apply andb_prop in Ha as [_ Ha]. apply andb_prop in Ha' as [_ Ha'].
    destruct (IH _ _ _ Heq Ha Ha' Hb Hb') as [-> ->]. auto.
Qed.

Lemma stops_app (p : code_unit -> bool) (q : code_unit -> bool) w s :
  (forall c, q c = true -> p c = false) ->
  forallb q w = true -> stops p s -> stops p (w ++ s).
Proof.
  intros Hqp Hw Hs. destruct w as [|c w]; simpl in *; auto.
  apply andb_prop in Hw as [Hc _]. auto.
Qed.

Lemma stops_token_digit_space d s : token d -> stops is_space (d ++ s).
Proof.
  intros [Hd Hlen]. destruct d as [|c d]; simpl in *; [lia|].
  apply andb_prop in Hd as [Hc _]. apply digit_not_space; auto.
Qed.

Lemma stops_nonword s : is_word_opt (hd_error s) = false -> stops is_digit s.
Proof.
  destruct s as [|c s]; simpl; auto. intros H.
  destruct (is_digit c) eqn:Hd; auto. rewrite (digit_is_word _ Hd) in H.
  discriminate.
Qed.

(** At one position the pattern matches in one way at most. *)
Lemma here_unique l s d1 w1 w2 d2 rest d1' w1' w2' d2' rest' :
  here l s d1 w1 w2 d2 rest -> here l s d1' w1' w2' d2' rest' ->
  d1 = d1' /\ w1 = w1' /\ w2 = w2' /\ d2 = d2' /\ rest = rest'.
Proof.
  intros (Hs & Hd1 & Hw1 & Hw2 & Hd2 & _ & Hr)
         (Hs' & Hd1' & Hw1' & Hw2' & Hd2' & _ & Hr').
  rewrite Hs in Hs'.
  assert (Hcol : forall t, stops is_digit (colon :: t)) by (intros; reflexivity).
  assert (Hcol' : forall t, stops is_space (colon :: t)) by (intros; reflexivity).
  apply (maximal_run_unique is_digit) in Hs' as [-> Hs'];
    try (apply Hd1 || apply Hd1');
    try (apply stops_app with (q := is_space); auto using space_not_digit).
  apply (maximal_run_unique is_space) in Hs' as [-> Hs']; auto.
  injection Hs' as Hs'.
  apply (maximal_run_unique is_space) in Hs' as [-> Hs'];
    auto using stops_token_digit_space.
  apply (maximal_run_unique is_digit) in Hs' as [-> ->];
    try (apply Hd2 || apply Hd2'); auto using stops_nonword.
Qed.


Lemma hd_token_word d s : token d -> is_word_opt (hd_error (d ++ s)) = true.
Proof.
  intros [Hd Hlen]. destruct d as [|c d]; simpl in *; [lia|].
  apply andb_prop in Hd as [Hc _]. apply digit_is_word; auto.
Qed.

Lemma hd_rev_token_word d s : token d -> is_word_opt (hd_error (rev d ++ s)) = true.
Proof.
  intros [Hd Hlen]. destruct d as [|c d] using rev_ind; simpl in *; [lia|].
  rewrite rev_app_distr. simpl. rewrite forallb_app in Hd.
  apply andb_prop in Hd as [_ Hc]. simpl in Hc. apply andb_prop in Hc as [Hc _].
  apply digit_is_word; auto.
Qed.

(** What the matcher finds at a position is exactly the pattern. *)
Lemma run_timecode_sound x y :
  In y (run timecode_re x) ->
  exists d1 w1 w2 d2,
    here (passed x) (ahead x) d1 w1 w2 d2 (ahead y) /\
    y = end_state x d1 w1 w2 d2 (ahead y).
Proof.
  unfold timecode_re, seqs, Chr.
  intros H.
  apply run_seq in H as (m1 & H1 & H).
  apply run_wordb in H1 as [-> Hb1].
  apply run_seq in H as (m2 & H2 & H).
  apply run_grp in H2 as (z1 & H2 & ->).
  apply run_rep_class in H2 as (d1 & Ha1 & Hp1 & Hc1 & Hd1 & Hl1 & Hh1);
    [|simpl; lia].
  apply run_seq in H as (m3 & H3 & H).
  apply run_rep_class in H3 as (w1 & Ha3 & Hp3 & Hc3 & Hw1 & _ & _);
    [|simpl; auto].
  apply run_seq in H as (m4 & H4 & H).
  apply run_cls in H4 as (c & Hc & Ha4 & Hp4 & Hc4).
  apply N.eqb_eq in Hc. subst c.
  apply run_seq in H as (m5 & H5 & H).
  apply run_rep_class in H5 as (w2 & Ha5 & Hp5 & Hc5 & Hw2 & _ & _);
    [|simpl; auto].
  apply run_seq in H as (m6 & H6 & H).
  apply run_grp in H6 as (z2 & H6 & ->).
  apply run_rep_class in H6 as (d2 & Ha6 & Hp6 & Hc6 & Hd2 & Hl2 & Hh2);
    [|simpl; lia].
  apply run_wordb in H as [-> Hb2].
  simpl in *.
  assert (Ht1 : token d1) by (split; auto).
  assert (Ht2 : token d2) by (split; auto).
  unfold capture in *. cbn [passed ahead caps] in *.
  rewrite (@consumed_app x z1 d1 Ha1) in Hc3.
  rewrite (@consumed_app m5 z2 d2 Ha6).
  assert (Hx : ahead x = d1 ++ w1 ++ colon :: w2 ++ d2 ++ ahead z2)
    by congruence.
  exists d1, w1, w2, d2. split.
  - repeat split; auto; try lia.
    + unfold word_before, word_after in Hb1. rewrite Hx in Hb1.
      rewrite (hd_token_word _ Ht1) in Hb1.
      destruct (is_word_opt (hd_error (passed x))); auto.
    + unfold word_before, word_after in Hb2. simpl in Hb2.
      rewrite Hp6, (hd_rev_token_word _ Ht2) in Hb2.
      destruct (is_word_opt (hd_error (ahead z2))); auto.
  - unfold end_state, matched. f_equal.
    + rewrite Hp6, Hp5, Hp4, Hp3, Hp1. repeat rewrite rev_app_distr. simpl.
      repeat rewrite rev_app_distr. simpl.
      repeat rewrite <- app_assoc. simpl. reflexivity.
    + congruence.
Qed.

Lemma run_timecode_complete x d1 w1 w2 d2 rest :
  here (passed x) (ahead x) d1 w1 w2 d2 rest ->
  In (end_state x d1 w1 w2 d2 rest) (run timecode_re x).
Proof.
  destruct x as [px ax cx]. cbn [passed ahead caps].
  intros (Hs & Hd1 & Hw1 & Hw2 & Hd2 & Hl & Hr). subst ax.
  set (x := MState px (d1 ++ w1 ++ colon :: w2 ++ d2 ++ rest) cx).
  unfold timecode_re, seqs, Chr.
  set (z1 := MState (rev d1 ++ passed x)
                    (w1 ++ colon :: w2 ++ d2 ++ rest) (caps x)).
  set (m2 := capture 1 x z1).
  set (m3 := MState (rev w1 ++ passed m2) (colon :: w2 ++ d2 ++ rest) (caps m2)).
  set (m4 := MState (colon :: passed m3) (w2 ++ d2 ++ rest) (caps m3)).
  set (m5 := MState (rev w2 ++ passed m4) (d2 ++ rest) (caps m4)).
  set (z2 := MState (rev d2 ++ passed m5) rest (caps m5)).
  set (m6 := capture 2 m5 z2).
  assert (E : end_state x d1 w1 w2 d2 rest = m6).
  { subst m6 z2 m5 m4 m3 m2 z1 x.
    unfold end_state, matched, capture. cbn [passed ahead caps].
    rewrite !consumed_mk. f_equal. repeat rewrite rev_app_distr. simpl.
    repeat rewrite rev_app_distr. simpl.
    repeat rewrite <- app_assoc. simpl. reflexivity. }
  rewrite E.
  apply run_seq. exists x. split.
  { apply run_wordb. split; auto. unfold word_before, word_after.
    cbn [passed ahead x]. rewrite (hd_token_word _ Hd1), Hl. reflexivity. }
  apply run_seq. exists m2. split.
  { apply run_grp. exists z1. split; auto.
    apply run_rep_class; [simpl; lia|]. exists d1. destruct Hd1 as [? ?].
    simpl. repeat split; auto; lia. }
  apply run_seq. exists m3. split.
  { apply run_rep_class; [simpl; auto|]. exists w1.
    simpl. repeat split; auto; lia. }
  apply run_seq. exists m4. split.
  { apply run_cls. exists colon. simpl. repeat split; auto. }
  apply run_seq. exists m5. split.
  { apply run_rep_class; [simpl; auto|]. exists w2.
    simpl. repeat split; auto; lia. }
  apply run_seq. exists m6. split.
  { apply run_grp. exists z2. split; auto.
    apply run_rep_class; [simpl; lia|]. exists d2. destruct Hd2 as [? ?].
    simpl. repeat split; auto; lia. }
  apply run_wordb. split; auto. unfold word_before, word_after. simpl.
  rewrite (hd_rev_token_word _ Hd2), Hr. reflexivity.
Qed.

(** The first alternative of the backtracking search is that match. *)
Lemma run_timecode_hd x d1 w1 w2 d2 rest :
  here (passed x) (ahead x) d1 w1 w2 d2 rest ->
  hd_error (run timecode_re x) = Some (end_state x d1 w1 w2 d2 rest).
Proof.
  intros Hh. pose proof (run_timecode_complete _ Hh) as Hin.
  destruct (run timecode_re x) as [|z tl] eqn:Hr; [destruct Hin|].
  simpl. f_equal.
  assert (Hz : In z (run timecode_re x)) by (rewrite Hr; left; auto).
  apply run_timecode_sound in Hz as (d1' & w1' & w2' & d2' & Hh' & ->).
  destruct (here_unique Hh' Hh) as (-> & -> & -> & -> & ->). reflexivity.
Qed.

Lemma run_timecode_nil x :
  (forall d1 w1 w2 d2 rest, ~ here (passed x) (ahead x) d1 w1 w2 d2 rest) ->
  run timecode_re x = [].
Proof.
  intros Hno. destruct (run timecode_re x) as [|z tl] eqn:Hr; auto.
  assert (Hz : In z (run timecode_re x)) by (rewrite Hr; left; auto).
  apply run_timecode_sound in Hz as (d1 & w1 & w2 & d2 & Hh & _).
  destruct (Hno _ _ _ _ _ Hh).
Qed.


Lemma here_timecode_at pre d1 w1 w2 d2 rest post :
  here (passed (at_split [] pre post)) (ahead (at_split [] pre post))
       d1 w1 w2 d2 rest <->
  timecode_at (pre ++ post) pre d1 w1 w2 d2 rest.
Proof.
  unfold here, timecode_at, at_split, last_cu, first_cu. cbn [passed ahead].
  rewrite app_nil_r. split.
  - intros (-> & H). split; auto.
  - intros (Hs & H). apply app_inv_head in Hs. split; auto.
Qed.

Lemma timecode_at_text text pre d1 w1 w2 d2 post :
  timecode_at text pre d1 w1 w2 d2 post ->
  text = pre ++ (d1 ++ w1 ++ colon :: w2 ++ d2 ++ post).
Proof. intros (H & _). exact H. Qed.

Lemma no_earlier text pre d1 w1 w2 d2 post :
  first_timecode text pre d1 w1 w2 d2 post ->
  forall pre' post', text = pre' ++ post' -> length pre' < length pre ->
                     run timecode_re (at_split [] pre' post') = [].
Proof.
  intros [_ Hmin] pre' post' Hs Hlen. apply run_timecode_nil.
  intros e1 v1 v2 e2 rest Hh. apply here_timecode_at in Hh.
  rewrite <- Hs in Hh. apply Hmin in Hh. lia.
Qed.

(** [match] returns the leftmost place of the pattern, with the two runs
    of digits as groups 1 and 2. *)
Lemma string_match_first text pre d1 w1 w2 d2 post :
  first_timecode text pre d1 w1 w2 d2 post ->
  string_match text timecode_re = Some (match_of pre d1 w1 w2 d2).
Proof.
  intros Hf. pose proof Hf as [Hat _].
  pose proof (timecode_at_text Hat) as Hs.
  unfold string_match.
  rewrite (@exec_from_first timecode_re text [] pre
             (d1 ++ w1 ++ colon :: w2 ++ d2 ++ post)
             (end_state (at_split [] pre (d1 ++ w1 ++ colon :: w2 ++ d2 ++ post))
                        d1 w1 w2 d2 post) Hs).
  - unfold match_of, end_state, at_split. cbn [passed ahead caps].
    rewrite app_nil_r, length_rev. f_equal. f_equal.
    replace (d1 ++ w1 ++ colon :: w2 ++ d2 ++ post)
      with (matched d1 w1 w2 d2 ++ post)
      by (unfold matched; repeat rewrite <- app_assoc; simpl;
          repeat rewrite <- app_assoc; reflexivity).
    apply consumed_mk.
  - apply run_timecode_hd. apply here_timecode_at. rewrite <- Hs. exact Hat.
  - apply (no_earlier Hf).
Qed.

Lemma string_match_inv text m :
  string_match text timecode_re = Some m ->
  exists pre d1 w1 w2 d2 post,
    first_timecode text pre d1 w1 w2 d2 post /\ m = match_of pre d1 w1 w2 d2.
Proof.
  intros Hm. pose proof Hm as Hm0. unfold string_match in Hm0.
  destruct (exec_from timecode_re [] text) as [[x y]|] eqn:He; [|discriminate].
  clear Hm0.
  apply exec_from_some in He as (pre & post0 & Hs & -> & Hhd & Hmin).
  assert (Hin : In y (run timecode_re (at_split [] pre post0))).
  { destruct (run timecode_re (at_split [] pre post0)); [discriminate|].
    injection Hhd as ->. left; auto. }
  apply run_timecode_sound in Hin as (d1 & w1 & w2 & d2 & Hh & Hy).
  apply here_timecode_at in Hh. rewrite <- Hs in Hh.
  assert (Hf : first_timecode text pre d1 w1 w2 d2 (ahead y)).
  { split; auto. intros pre' e1 v1 v2 e2 post' Hat'.
    destruct (Nat.le_gt_cases (length pre) (length pre')) as [|Hlt]; auto.
    pose proof (timecode_at_text Hat') as Hs'.
    specialize (Hmin _ _ Hs' Hlt).
    rewrite Hs' in Hat'. apply here_timecode_at in Hat'.
    apply run_timecode_complete in Hat'. rewrite Hmin in Hat'. destruct Hat'. }
  exists pre, d1, w1, w2, d2, (ahead y). split; auto.
  rewrite (string_match_first Hf) in Hm. injection Hm as <-. reflexivity.
Qed.

Lemma string_match_none text :
  string_match text timecode_re = None <->
  (forall pre d1 w1 w2 d2 post, ~ timecode_at text pre d1 w1 w2 d2 post).
Proof.
  split.
  - unfold string_match.
    destruct (exec_from timecode_re [] text) as [[x y]|] eqn:He; [discriminate|].
    intros _ pre d1 w1 w2 d2 post Hat.
    pose proof (timecode_at_text Hat) as Hs.
    pose proof (@exec_from_none _ _ _ He _ _ Hs) as Hnil.
    rewrite Hs in Hat. apply here_timecode_at in Hat.
    apply run_timecode_complete in Hat. rewrite Hnil in Hat. destruct Hat.
  - intros Hno. destruct (string_match text timecode_re) eqn:Hm; auto.
    apply string_match_inv in Hm as (pre & d1 & w1 & w2 & d2 & post & [Hat _] & _).
    destruct (Hno _ _ _ _ _ _ Hat).
Qed.


(** *** Number on a captured group *)

Lemma drop_spaces_token d : token d -> drop_spaces d = d.
Proof.
  intros [Hd Hlen]. destruct d as [|c d]; auto. simpl in *.
  apply andb_prop in Hd as [Hc _]. rewrite (digit_not_space _ Hc). reflexivity.
Qed.

Lemma token_rev d : token d -> token (rev d).
Proof.
  intros [Hd Hlen]. split; [|rewrite length_rev; auto].
  apply forallb_forall. intros c Hc. apply in_rev in Hc.
  rewrite forallb_forall in Hd. auto.
Qed.

Lemma trim_spaces_token d : token d -> trim_spaces d = d.
Proof.
  intros H. unfold trim_spaces.
  rewrite (drop_spaces_token H), (drop_spaces_token (token_rev H)).
  apply rev_involutive.
Qed.

Lemma decimal_acc d : forall acc,
  forallb is_digit d = true -> (0 <= acc)%Z ->
  (0 <= fold_left (fun a c => 10 * a + digit_value c) d acc
   < (acc + 1) * 10 ^ Z.of_nat (length d))%Z.
Proof.
  induction d as [|c d IH]; intros acc Hd Hacc.
  - simpl. lia.
  - cbn [fold_left length]. simpl in Hd. apply andb_prop in Hd as [Hc Hd].
    pose proof (digit_value_range _ Hc) as Hv.
    specialize (IH (10 * acc + digit_value c)%Z Hd ltac:(lia)).
    rewrite Nat2Z.inj_succ, Z.pow_succ_r by lia.
    split; [lia|]. destruct IH as [_ IH].
    eapply Z.lt_le_trans; [exact IH|].
    assert (0 < 10 ^ Z.of_nat (length d))%Z by (apply Z.pow_pos_nonneg; lia).
    nia.
Qed.

(** A captured group is a whole number of seconds from 0 to 9999. *)
Lemma decimal_token d : token d -> (0 <= decimal d <= 9999)%Z.
Proof.
  intros [Hd Hlen]. unfold decimal.
  pose proof (@decimal_acc d 0%Z Hd ltac:(lia)) as [H0 H1].
  split; auto.
  assert (10 ^ Z.of_nat (length d) <= 10 ^ 4)%Z
    by (apply Z.pow_le_mono_r; lia).
  change (10 ^ 4)%Z with 10000%Z in *. lia.
Qed.

Lemma Number_token d : token d -> Number (Some d) = Fin (decimal d).
Proof.
  intros H. unfold Number. rewrite (trim_spaces_token H).
  destruct H as [-> _]. reflexivity.
Qed.

(** *** The parser in terms of the leftmost pattern *)

Lemma timecode_at_nonempty text pre d1 w1 w2 d2 post :
  timecode_at text pre d1 w1 w2 d2 post -> text <> [].
Proof.
  intros (Hs & _) ->. apply (f_equal (@length _)) in Hs.
  repeat (rewrite length_app in Hs; simpl in Hs). lia.
Qed.

Lemma parseTimecodes_first text pre d1 w1 w2 d2 post :
  first_timecode text pre d1 w1 w2 d2 post ->
  parseTimecodes (Some text) = verdict (decimal d1) (decimal d2).
Proof.
  intros Hf. pose proof Hf as [Hat _].
  pose proof (timecode_at_nonempty Hat) as Hne.
  pose proof Hat as (_ & Hd1 & _ & _ & Hd2 & _).
  unfold parseTimecodes. destruct text as [|c text]; [congruence|].
  rewrite (string_match_first Hf). unfold match_of, group. cbn [groups lookup_cap].
  cbn [Nat.eqb]. rewrite (Number_token Hd1), (Number_token Hd2).
  pose proof (decimal_token Hd1) as [H1 _].
  unfold verdict. cbn [isNaN orb num_lt num_le].
  destruct (decimal d1 <? 0)%Z eqn:Hneg; [apply Z.ltb_lt in Hneg; lia|].
  cbn [orb]. reflexivity.
Qed.

Lemma parseTimecodes_absent text :
  (forall pre d1 w1 w2 d2 post, ~ timecode_at text pre d1 w1 w2 d2 post) ->
  parseTimecodes (Some text) = Return None.
Proof.
  intros Hno. unfold parseTimecodes. destruct text as [|c text]; auto.
  apply string_match_none in Hno. rewrite Hno. reflexivity.
Qed.

(** Every text either holds the pattern, and then a leftmost one, or does
    not hold it at all. *)
Lemma timecode_or_not text :
  (exists pre d1 w1 w2 d2 post, first_timecode text pre d1 w1 w2 d2 post) \/
  (forall pre d1 w1 w2 d2 post, ~ timecode_at text pre d1 w1 w2 d2 post).
Proof.
  destruct (string_match text timecode_re) as [m|] eqn:Hm.
  - left. apply string_match_inv in Hm as (pre & d1 & w1 & w2 & d2 & post & Hf & _).
    exists pre, d1, w1, w2, d2, post. exact Hf.
  - right. apply string_match_none. exact Hm.
Qed.


(** *** What follows the leftmost pattern does not matter *)

Lemma last_cu_app p u : u <> [] -> last_cu (p ++ u) = last_cu u.
Proof.
  intros Hu. unfold last_cu. rewrite rev_app_distr.
  destruct (rev u) as [|c r] eqn:Hr; [|reflexivity].
  apply (f_equal (@rev _)) in Hr. rewrite rev_involutive in Hr. contradiction.
Qed.

Lemma last_digit_word u :
  u <> [] -> forallb is_digit u = true -> is_word_opt (last_cu u) = true.
Proof.
  intros Hu Hd. unfold last_cu.
  destruct u as [|c u _] using rev_ind; [contradiction|].
  rewrite rev_app_distr. simpl. rewrite forallb_app in Hd.
  apply andb_prop in Hd as [_ Hc]. simpl in Hc. apply andb_prop in Hc as [Hc _].
  apply digit_is_word; auto.
Qed.

Lemma blank_no_digit l c r : blank (l ++ c :: r) -> is_digit c = true -> False.
Proof.
  unfold blank. rewrite forallb_app. intros Hb Hc.
  apply andb_prop in Hb as [_ Hb]. simpl in Hb. apply andb_prop in Hb as [Hb _].
  rewrite (digit_not_space _ Hc) in Hb. discriminate.
Qed.

(** A place of the pattern that is cut just before a digit, after a code
    unit that is not a word character, is cut at the start of its second
    run of digits. *)
Lemma cut_before_second_run e1 v1 v2 e2 u c t :
  e1 ++ v1 ++ colon :: v2 ++ e2 = u ++ c :: t ->
  forallb is_digit e1 = true -> blank v1 -> blank v2 ->
  forallb is_digit e2 = true ->
  u <> [] -> is_word_opt (last_cu u) = false -> is_digit c = true ->
  e2 = c :: t.
Proof.
  intros H He1 Hv1 Hv2 He2 Hu Hlast Hc.
  apply app_eq_app in H as [l [[H1 H2]|[H1 H2]]].
  { subst e1. rewrite forallb_app in He1. apply andb_prop in He1 as [He1 _].
    rewrite (last_digit_word Hu He1) in Hlast. discriminate. }
  apply app_eq_app in H2 as [l2 [[H3 H4]|[H3 H4]]].
  { destruct l2 as [|c' l2]; simpl in H4; injection H4 as Hcc H4.
    - rewrite Hcc in Hc. discriminate.
    - subst v1 c'. destruct (blank_no_digit _ _ _ Hv1 Hc). }
  destruct l2 as [|c2 l3]; simpl in H4; injection H4 as Hcc H4.
  { rewrite <- Hcc in Hc. discriminate. }
  apply app_eq_app in H4 as [l4 [[H5 H6]|[H5 H6]]].
  - destruct l4 as [|c' l4]; simpl in H6; [auto|].
    injection H6 as Hc' H6. subst v2 c'. destruct (blank_no_digit _ _ _ Hv2 Hc).
  - destruct l4 as [|c' l4]; [simpl in H6; auto|]. exfalso.
    subst e2. rewrite forallb_app in He2. apply andb_prop in He2 as [He2 _].
    subst u l l3 c2.
    replace (e1 ++ (v1 ++ colon :: v2 ++ c' :: l4))
      with ((e1 ++ v1 ++ colon :: v2) ++ c' :: l4) in Hlast
      by (repeat rewrite <- app_assoc; simpl; repeat rewrite <- app_assoc; reflexivity).
    rewrite last_cu_app in Hlast by discriminate.
    rewrite last_digit_word in Hlast; [discriminate|discriminate|exact He2].
Qed.

(** The leftmost place of the pattern stays the leftmost one when the text
    after it is replaced by any text that does not start with a word
    character. *)
Lemma first_timecode_tail pre d1 w1 w2 d2 post post' :
  first_timecode (pre ++ d1 ++ w1 ++ colon :: w2 ++ d2 ++ post) pre d1 w1 w2 d2 post ->
  is_word_opt (first_cu post') = false ->
  first_timecode (pre ++ d1 ++ w1 ++ colon :: w2 ++ d2 ++ post') pre d1 w1 w2 d2 post'.
Proof.
  intros [Hat Hmin] Hpost'.
  destruct Hat as (_ & Hd1 & Hw1 & Hw2 & Hd2 & Hl & Hr).
  split; [repeat split; auto; try apply Hd1; try apply Hd2|].
  intros p e1 v1 v2 e2 q (Hs & He1 & Hv1 & Hv2 & He2 & Hpl & Hq).
  destruct (Nat.le_gt_cases (length pre) (length p)) as [|Hlt]; auto. exfalso.
  (* the other place starts inside [pre] *)
  apply app_eq_app in Hs as [u [[Hpre Hs]|[Hp _]]];
    [|subst p; rewrite length_app in Hlt; lia].
  assert (Hu : u <> []).
  { intros ->. rewrite app_nil_r in Hpre. subst p. lia. }
  (* it is enough to find it in the first text as well *)
  assert (Hgoal : exists q0,
             u ++ d1 ++ w1 ++ colon :: w2 ++ d2 ++ post
             = e1 ++ v1 ++ colon :: v2 ++ e2 ++ q0 /\
             is_word_opt (first_cu q0) = false).
  { set (A := e1 ++ v1 ++ colon :: v2 ++ e2).
    set (Y := u ++ d1 ++ w1 ++ colon :: w2 ++ d2).
    assert (HA : forall r, e1 ++ v1 ++ colon :: v2 ++ e2 ++ r = A ++ r).
    { intros r. unfold A. repeat rewrite <- app_assoc. simpl.
      repeat rewrite <- app_assoc. reflexivity. }
    assert (HY : forall r, u ++ d1 ++ w1 ++ colon :: w2 ++ d2 ++ r = Y ++ r).
    { intros r. unfold Y. repeat rewrite <- app_assoc. simpl.
      repeat rewrite <- app_assoc. simpl. repeat rewrite <- app_assoc. reflexivity. }
    rewrite HA, HY in Hs. setoid_rewrite HA. rewrite HY.
    apply app_eq_app in Hs as [l [[H1 H2]|[H1 H2]]].
    - (* it cannot reach beyond the end of the leftmost place *)
      destruct l as [|c l].
      + exists post. rewrite app_nil_r in H1. rewrite H1. auto.
      + exfalso. destruct Hd1 as [Hd1 Hlen1].
        destruct d1 as [|c1 d1]; [simpl in Hlen1; lia|].
        simpl in Hd1. apply andb_prop in Hd1 as [Hc1 Hd1].
        assert (Hcut : e2 = c1 :: (d1 ++ w1 ++ colon :: w2 ++ d2) ++ c :: l).
        { apply (@cut_before_second_run e1 v1 v2 e2 u c1
                   ((d1 ++ w1 ++ colon :: w2 ++ d2) ++ c :: l)); auto;
            try apply He1; try apply He2.
          - fold A. rewrite H1. unfold Y. repeat rewrite <- app_assoc. simpl.
            repeat rewrite <- app_assoc. reflexivity.
          - rewrite <- (last_cu_app p Hu), <- Hpre. exact Hl. }
        destruct He2 as [He2 _]. rewrite Hcut in He2. simpl in He2.
        apply andb_prop in He2 as [_ He2].
        repeat rewrite forallb_app in He2.
        apply andb_prop in He2 as [He2 _]. apply andb_prop in He2 as [_ He2].
        apply andb_prop in He2 as [_ He2]. simpl in He2. discriminate.
    - (* it ends at or before the end of the leftmost place *)
      exists (l ++ post). rewrite H1, <- app_assoc. split; auto.
      destruct l as [|c l]; [exact Hr|]. rewrite H2 in Hq. exact Hq. }
  destruct Hgoal as (q0 & Hs0 & Hq0).
  assert (Hat0 : timecode_at (pre ++ d1 ++ w1 ++ colon :: w2 ++ d2 ++ post)
                             p e1 v1 v2 e2 q0).
  { repeat split; auto; try apply He1; try apply He2.
    rewrite Hpre, <- app_assoc, Hs0. reflexivity. }
  apply Hmin in Hat0. lia.
Qed.

Example parse_skip :
  parseTimecodes (Some (js "skip to 0:40 please"))
  = Return (Some (mkTrimRange (VNumber (Fin 0)) (VNumber (Fin 40)))).
Proof. vm_compute. reflexivity. Qed.


(* ================================================================== *)
(** ** The timecode parser: the properties of the specification *)

(** A word boundary is in particular the end of a digit run. *)
Lemma timecode_at_spec text pre d1 w1 w2 d2 post :
  timecode_at text pre d1 w1 w2 d2 post ->
  spec_timecode_at text pre d1 w1 w2 d2 post.
Proof.
  intros (Hs & Hd1 & Hw1 & Hw2 & Hd2 & Hl & Hr).
  assert (Hopt : forall o, is_word_opt o = false -> is_digit_opt o = false).
  { intros [c|]; simpl; auto. intros H. destruct (is_digit c) eqn:Hd; auto.
    rewrite (digit_is_word _ Hd) in H. discriminate. }
  repeat split; auto; try apply Hd1; try apply Hd2.
Qed.

(** A place of the pattern at the index that [match] reports is the
    leftmost one. *)
Lemma first_timecode_by_match text pre d1 w1 w2 d2 post m :
  timecode_at text pre d1 w1 w2 d2 post ->
  string_match text timecode_re = Some m -> index m = length pre ->
  first_timecode text pre d1 w1 w2 d2 post.
Proof.
  intros Hat Hm Hi. split; auto.
  apply string_match_inv in Hm as (pre0 & e1 & v1 & v2 & e2 & post0 & [_ Hmin] & ->).
  simpl in Hi. rewrite <- Hi. exact Hmin.
Qed.


Lemma verdict_return a b r :
  verdict a b = Return r <-> (a < b)%Z /\ r = Some (range a b).
Proof.
  unfold verdict. destruct (Z.leb_spec b a); split.
  - discriminate.
  - intros [H' _]. lia.
  - intros E. injection E as <-. split; auto.
  - intros [_ ->]. reflexivity.
Qed.

Lemma verdict_throw a b e :
  verdict a b = Throw e <-> (b <= a)%Z /\ e = TimecodeParseError EndMustExceedStart.
Proof.
  unfold verdict. destruct (Z.leb_spec b a); split.
  - intros E. injection E as <-. split; auto.
  - intros [_ ->]. reflexivity.
  - discriminate.
  - intros [H' _]. lia.
Qed.

(** The parser on any argument: null, or the verdict on the leftmost
    pattern of the text. *)
Lemma parseTimecodes_cases rawText :
  parseTimecodes rawText = Return None \/
  exists text pre d1 w1 w2 d2 post,
    rawText = Some text /\ first_timecode text pre d1 w1 w2 d2 post /\
    parseTimecodes rawText = verdict (decimal d1) (decimal d2).
Proof.
  destruct rawText as [text|]; [|left; reflexivity].
  destruct (timecode_or_not text) as [(pre & d1 & w1 & w2 & d2 & post & Hf)|Hno].
  - right. exists text, pre, d1, w1, w2, d2, post.
    repeat split; try apply Hf. apply (parseTimecodes_first Hf).
  - left. apply parseTimecodes_absent. exact Hno.
Qed.




(** C2.  When the matched (leftmost) pattern has end <= start, equality
    included, [parseTimecodes] throws its TimecodeParseError (the format
    error of the specification) and returns nothing; given a matched
    pattern it throws in no other case.  "40:10" and "5:5" are such texts,
    and the parser throws no other error. *)
Theorem parseTimecodes_throws_iff_end_le_start :
  (forall text pre d1 w1 w2 d2 post,
      first_timecode text pre d1 w1 w2 d2 post ->
      ((decimal d2 <= decimal d1)%Z ->
       parseTimecodes (Some text) = Throw (TimecodeParseError EndMustExceedStart)) /\
      (forall e, parseTimecodes (Some text) = Throw e ->
                 (decimal d2 <= decimal d1)%Z)) /\
  parseTimecodes (Some (js "40:10")) = Throw (TimecodeParseError EndMustExceedStart) /\
  parseTimecodes (Some (js "5:5")) = Throw (TimecodeParseError EndMustExceedStart) /\
  (forall rawText e,
      parseTimecodes rawText = Throw e -> e = TimecodeParseError EndMustExceedStart).
Proof.
  split; [|split; [|split]].
  - intros text pre d1 w1 w2 d2 post Hf. rewrite (parseTimecodes_first Hf). split.
    + intros Hle. apply verdict_throw. auto.
    + intros e He. apply verdict_throw in He. tauto.
  - vm_compute. reflexivity.
  - vm_compute. reflexivity.
  - intros rawText e He.
    destruct (parseTimecodes_cases rawText)
      as [H|(text & pre & d1 & w1 & w2 & d2 & post & _ & _ & H)];
      rewrite H in He; [discriminate|].
    apply verdict_throw in He. tauto.
Qed.

Lemma forty_ten_first :
  first_timecode (js "40:10") [] (js "40") [] [] (js "10") [].
Proof.
  eapply first_timecode_by_match.
  - unfold timecode_at, token, blank. vm_compute. repeat split; auto.
  - vm_compute. reflexivity.
  - reflexivity.
Qed.

Lemma parseTimecodes_throws_iff_end_le_start_witness :
  first_timecode (js "40:10") [] (js "40") [] [] (js "10") [] /\
  (decimal (js "10") <= decimal (js "40"))%Z /\
  parseTimecodes (Some (js "40:10")) = Throw (TimecodeParseError EndMustExceedStart).
Proof.
  split; [exact forty_ten_first|].
  split; [vm_compute; discriminate|].
  apply (proj1 (proj1 parseTimecodes_throws_iff_end_le_start
                      (js "40:10") [] (js "40") [] [] (js "10") []
                      forty_ten_first)).
  vm_compute. discriminate.
Defined.

(** C3.  A text that holds no colon-separated pair of integers of one to
    four digits standing as a token (not part of a longer digit run), the
    empty text and an absent text included, makes [parseTimecodes] return
    null; nothing is thrown. *)
Theorem parseTimecodes_null_without_pair :
  parseTimecodes None = Return None /\
  parseTimecodes (Some []) = Return None /\
  (forall text,
      (forall pre d1 w1 w2 d2 post, ~ spec_timecode_at text pre d1 w1 w2 d2 post) ->
      parseTimecodes (Some text) = Return None).
Proof.
  split; [reflexivity|]. split; [reflexivity|].
  intros text Hno. apply parseTimecodes_absent.
  intros pre d1 w1 w2 d2 post Hat. apply (Hno pre d1 w1 w2 d2 post).
  apply timecode_at_spec. exact Hat.
Qed.

Lemma parseTimecodes_null_without_pair_witness :
  (forall pre d1 w1 w2 d2 post,
      ~ spec_timecode_at (js "no timecodes here") pre d1 w1 w2 d2 post) /\
  parseTimecodes (Some (js "no timecodes here")) = Return None.
Proof.
  assert (Hno : forall pre d1 w1 w2 d2 post,
             ~ spec_timecode_at (js "no timecodes here") pre d1 w1 w2 d2 post).
  { intros pre d1 w1 w2 d2 post (Hs & _).
    assert (Hin : In colon (js "no timecodes here")).
    { rewrite Hs. apply in_or_app. right. apply in_or_app. right.
      apply in_or_app. right. left. reflexivity. }
    vm_compute in Hin.
    repeat (destruct Hin as [Hin|Hin]; [discriminate|]). destruct Hin. }
  split; [exact Hno|].
  apply (proj2 (proj2 parseTimecodes_null_without_pair) _ Hno).
Defined.

(** C8.  The result of [parseTimecodes], value or error, is a function of
    the leftmost pattern of the text alone: it is the verdict on the two
    integers of that pattern, so two texts whose leftmost patterns carry the
    same digits get the same result; and the text after the leftmost
    pattern, further colon pairs included, can be replaced by any other
    (that does not start with a word character, so that the pattern still
    ends there) without changing the result.  So "0:40 then 50:10" gives
    the range 0..40 and "50:10 then 0:40" is refused. *)
Theorem parseTimecodes_first_match_only :
  (forall text pre d1 w1 w2 d2 post text' pre' w1' w2' post',
      first_timecode text pre d1 w1 w2 d2 post ->
      first_timecode text' pre' d1 w1' w2' d2 post' ->
      parseTimecodes (Some text) = parseTimecodes (Some text')) /\
  (forall text pre d1 w1 w2 d2 post,
      first_timecode text pre d1 w1 w2 d2 post ->
      parseTimecodes (Some text) = verdict (decimal d1) (decimal d2)) /\
  (forall pre d1 w1 w2 d2 post post',
      first_timecode (pre ++ d1 ++ w1 ++ colon :: w2 ++ d2 ++ post)
                     pre d1 w1 w2 d2 post ->
      is_word_opt (first_cu post') = false ->
      parseTimecodes (Some (pre ++ d1 ++ w1 ++ colon :: w2 ++ d2 ++ post'))
      = parseTimecodes (Some (pre ++ d1 ++ w1 ++ colon :: w2 ++ d2 ++ post))) /\
  parseTimecodes (Some (js "0:40 then 50:10")) = Return (Some (range 0 40)) /\
  parseTimecodes (Some (js "50:10 then 0:40"))
  = Throw (TimecodeParseError EndMustExceedStart).
Proof.
  split; [|split; [|split; [|split]]].
  - intros text pre d1 w1 w2 d2 post text' pre' w1' w2' post' Hf Hf'.
    rewrite (parseTimecodes_first Hf), (parseTimecodes_first Hf'). reflexivity.
  - intros text pre d1 w1 w2 d2 post Hf. apply (parseTimecodes_first Hf).
  - intros pre d1 w1 w2 d2 post post' Hf Hpost'.
    pose proof (parseTimecodes_first
                  (@first_timecode_tail pre d1 w1 w2 d2 post post' Hf Hpost')) as H'.
    pose proof (parseTimecodes_first Hf) as H.
    etransitivity; [exact H'|symmetry; exact H].
  - vm_compute. reflexivity.
  - vm_compute. reflexivity.
Qed.

Lemma two_pairs_first :
  first_timecode (js "0:40 then 50:10") [] (js "0") [] [] (js "40") (js " then 50:10").
Proof.
  eapply first_timecode_by_match.
  - unfold timecode_at, token, blank. vm_compute. repeat split; auto.
  - vm_compute. reflexivity.
  - reflexivity.
Qed.

Lemma parseTimecodes_first_match_only_witness :
  first_timecode (js "0:40 then 50:10") [] (js "0") [] [] (js "40") (js " then 50:10") /\
  is_word_opt (first_cu (js " and 7:3, 9:1")) = false /\
  parseTimecodes (Some (js "0:40 and 7:3, 9:1"))
  = parseTimecodes (Some (js "0:40 then 50:10")).
Proof.
  split; [exact two_pairs_first|]. split; [reflexivity|].
  exact (proj1 (proj2 (proj2 parseTimecodes_first_match_only))
               [] (js "0") [] [] (js "40") (js " then 50:10") (js " and 7:3, 9:1")
               two_pairs_first eq_refl).
Defined.

(** C9.  Whenever the regular expression matches, groups 1 and 2 are both
    present and are runs of one to four decimal digits, so [Number] gives a
    whole number from 0 to 9999 for each and never NaN: the start < 0 test
    is never true, and the branch that throws "could not convert" is never
    taken. *)
Theorem captured_groups_are_numbers :
  (forall text m,
      string_match text timecode_re = Some m ->
      exists d1 d2,
        group m 1 = Some d1 /\ group m 2 = Some d2 /\ token d1 /\ token d2 /\
        Number (group m 1) = Fin (decimal d1) /\
        Number (group m 2) = Fin (decimal d2) /\
        isNaN (Number (group m 1)) = false /\
        isNaN (Number (group m 2)) = false /\
        num_lt (Number (group m 1)) (Fin 0) = false /\
        (0 <= decimal d1 <= 9999)%Z /\ (0 <= decimal d2 <= 9999)%Z) /\
  (forall rawText,
      parseTimecodes rawText <> Throw (TimecodeParseError CannotConvertTimecodes)).
Proof.
  split.
  - intros text m Hm.
    apply string_match_inv in Hm
      as (pre & d1 & w1 & w2 & d2 & post & [(_ & Hd1 & _ & _ & Hd2 & _) _] & ->).
    exists d1, d2. unfold group, match_of. cbn [groups lookup_cap Nat.eqb].
    rewrite (Number_token Hd1), (Number_token Hd2).
    pose proof (decimal_token Hd1) as H1. pose proof (decimal_token Hd2) as H2.
    repeat split; auto; try apply Hd1; try apply Hd2; try lia.
    simpl. apply Z.ltb_ge. lia.
  - intros rawText He.
    destruct (parseTimecodes_cases rawText)
      as [H|(text & pre & d1 & w1 & w2 & d2 & post & _ & _ & H)];
      rewrite H in He; [discriminate|].
    apply verdict_throw in He as [_ He]. discriminate.
Qed.

Lemma captured_groups_are_numbers_witness :
  string_match (js "from 12 : 345") timecode_re
  = Some (MatchArray 5 (js "12 : 345") [(2, js "345"); (1, js "12")]) /\
  isNaN (Number (Some (js "12"))) = false /\
  num_lt (Number (Some (js "12"))) (Fin 0) = false.
Proof.
  assert (Hm : string_match (js "from 12 : 345") timecode_re
               = Some (MatchArray 5 (js "12 : 345") [(2, js "345"); (1, js "12")]))
    by (vm_compute; reflexivity).
  split; [exact Hm|].
  destruct (proj1 captured_groups_are_numbers _ _ Hm)
    as (d1 & d2 & _ & _ & _ & _ & _ & _ & Hn & _ & Hl & _).
  split; [exact Hn|exact Hl].
Defined.

(* ================================================================== *)
(** ** Transcoding *)

Lemma convertToVoice_shape w inputPath outputPath s :
  (forall trimRange,
      (exists command,
          convertToVoice w inputPath outputPath trimRange s
          = call w (FfmpegSave command outputPath) s /\
          input command = inputPath /\
          outputOptions command = voice_options /\
          format command = Some (js "ogg")) \/
      convertToVoice w inputPath outputPath trimRange s
      = (s, Throw (Error InvalidTrimInterval))).
Proof.
  intros [[st en]|]; unfold convertToVoice; cbn [start end_].
  - destruct en as [|e].
    + left. destruct st as [|t]; cbn [typeof_number];
        eexists; (split; [reflexivity|]); repeat split; reflexivity.
    + destruct (num_le _ (Fin 0)); [right; reflexivity|].
      left. destruct st as [|t]; cbn [typeof_number];
        eexists; (split; [reflexivity|]); repeat split; reflexivity.
  - left. eexists. split; [reflexivity|]. repeat split; reflexivity.
Qed.

(** C6.  Unless it refuses the interval, [convertToVoice] makes one call of
    the transcoder, on the input file, with the options for Opus
    ([-acodec libopus]) at 48 kbit/s ([-b:a 48k]), one channel ([-ac 1]),
    48 kHz ([-ar 48000]), no video ([-vn]), in the Ogg format, saved to the
    output path.  With a range [{start, end}] of numbers and end - start > 0
    the start time is start and the duration end - start; with
    end - start <= 0 the promise is rejected and the transcoder is not
    called.  Without a range neither start time nor duration is set. *)
Theorem convertToVoice_invocation :
  forall w inputPath outputPath s,
    (forall trimRange,
        (exists command,
            convertToVoice w inputPath outputPath trimRange s
            = call w (FfmpegSave command outputPath) s /\
            input command = inputPath /\
            outputOptions command
            = [js "-acodec libopus"; js "-b:a 48k"; js "-ac 1"; js "-ar 48000"; js "-vn"] /\
            format command = Some (js "ogg")) \/
        convertToVoice w inputPath outputPath trimRange s
        = (s, Throw (Error InvalidTrimInterval))) /\
    (forall a b, (0 < b - a)%Z ->
        convertToVoice w inputPath outputPath (Some (range a b)) s
        = call w (FfmpegSave
                    (mkCommand inputPath (Some (Fin a)) (Some (Fin (b - a)))
                       [js "-acodec libopus"; js "-b:a 48k"; js "-ac 1";
                        js "-ar 48000"; js "-vn"]
                       (Some (js "ogg")))
                    outputPath) s) /\
    (forall a b, (b - a <= 0)%Z ->
        convertToVoice w inputPath outputPath (Some (range a b)) s
        = (s, Throw (Error InvalidTrimInterval))) /\
    convertToVoice w inputPath outputPath None s
    = call w (FfmpegSave
                (mkCommand inputPath None None
                   [js "-acodec libopus"; js "-b:a 48k"; js "-ac 1";
                    js "-ar 48000"; js "-vn"]
                   (Some (js "ogg")))
                outputPath) s.
Proof.
  intros w inputPath outputPath s. split; [|split; [|split]].
  - exact (convertToVoice_shape w inputPath outputPath s).
  - intros a b Hab. unfold convertToVoice, range. cbn [start end_ typeof_number num_sub num_le].
    destruct (Z.leb_spec (b - a) 0); [lia|]. reflexivity.
  - intros a b Hab. unfold convertToVoice, range. cbn [start end_ typeof_number num_sub num_le].
    destruct (Z.leb_spec (b - a) 0); [|lia]. reflexivity.
  - reflexivity.
Qed.

Lemma convertToVoice_invocation_witness :
  (0 < 40 - 0)%Z /\
  log (fst (convertToVoice calm (js "/tmp/in.mp3") (js "/tmp/out.ogg")
                           (Some (range 0 40)) empty_store))
  = [FfmpegSave
       (mkCommand (js "/tmp/in.mp3") (Some (Fin 0)) (Some (Fin 40))
          [js "-acodec libopus"; js "-b:a 48k"; js "-ac 1"; js "-ar 48000"; js "-vn"]
          (Some (js "ogg")))
       (js "/tmp/out.ogg")].
Proof.
  split; [reflexivity|].
  rewrite (proj1 (proj2 (convertToVoice_invocation calm (js "/tmp/in.mp3")
                           (js "/tmp/out.ogg") empty_store)) 0%Z 40%Z eq_refl).
  reflexivity.
Defined.

(** C10.  Without a trim range the [convertToVoice] of bot.js makes the
    very call of the transcoder that the [convertToVoice] of the older copy
    makes: same input, options, format and output path, and the same
    completion. *)
Theorem convertToVoice_agrees_with_older_copy :
  forall w inputPath outputPath s,
    convertToVoice w inputPath outputPath None s
    = Part000.convertToVoice w inputPath outputPath s.
Proof. intros w inputPath outputPath s. reflexivity. Qed.

(* ================================================================== *)
(** ** The handlers *)

Lemma extract_format_error message m :
  extractTimecodesFromMessage message = Throw (TimecodeParseError m) ->
  forall w s, on_audio w message s = call w (Reply TimecodeHint) s.
Proof. intros H w s. unfold on_audio. rewrite H. reflexivity. Qed.

(** C4 (as amended).  When the caption or text of an audio message, or of a
    document message whose document [isAudioDocument] takes for audio, makes
    the timecode parser throw its format error, the handler sends the format
    hint and stops: the hint is the only call it makes (no directory, no
    file link, no download, no transcoder, no deletion), and no temporary
    path is even drawn. *)
Theorem timecode_error_aborts_before_download :
  forall w message m s,
    extractTimecodesFromMessage message = Throw (TimecodeParseError m) ->
    fst (on_audio w message s) = mkStore (log s ++ [Reply TimecodeHint]) (drawn s) /\
    (forall next,
        isAudioDocument (document message) = true ->
        fst (on_document w message next s)
        = mkStore (log s ++ [Reply TimecodeHint]) (drawn s)).
Proof.
  intros w message m s H. split.
  - rewrite (@extract_format_error message m H w s). reflexivity.
  - intros next Ha. unfold on_document. rewrite Ha, H. reflexivity.
Qed.

Lemma timecode_error_aborts_before_download_witness :
  let message := mkMessage (Some (js "trim 40:10")) None (Some song) (Some song) in
  extractTimecodesFromMessage message = Throw (TimecodeParseError EndMustExceedStart) /\
  isAudioDocument (document message) = true /\
  log (fst (on_audio calm message empty_store)) = [Reply TimecodeHint] /\
  log (fst (on_document calm message None empty_store)) = [Reply TimecodeHint].
Proof.
  intros message.
  assert (H : extractTimecodesFromMessage message
              = Throw (TimecodeParseError EndMustExceedStart))
    by (vm_compute; reflexivity).
  assert (Ha : isAudioDocument (document message) = true)
    by (vm_compute; reflexivity).
  destruct (@timecode_error_aborts_before_download calm message _ empty_store H)
    as [H1 H2].
  split; [exact H|]. split; [exact Ha|]. split.
  - rewrite H1. reflexivity.
  - rewrite (H2 None Ha). reflexivity.
Defined.

(** C4 as stated fails for a document that is not audio: a PDF whose
    caption is "5:5" makes the parser throw, yet the document handler
    sends no hint; it hands the message on without parsing the caption. *)
Lemma non_audio_document_gets_no_hint :
  let message :=
    mkMessage (Some (js "5:5")) None None
              (Some (mkAttachment (js "BQAD") (js "uniq") (Some (js "notes.pdf"))
                                  (Some (js "application/pdf")))) in
  extractTimecodesFromMessage message = Throw (TimecodeParseError EndMustExceedStart) /\
  on_document calm message None empty_store = (empty_store, Return tt) /\
  on_document calm message (Some (ret tt)) empty_store = (empty_store, Return tt).
Proof. vm_compute. repeat split. Qed.

(* ================================================================== *)
(** ** Cleanup of the temporary files *)

Lemma bind_ext {A B : Type} (m m' : IO A) (k k' : A -> IO B) s :
  m s = m' s -> (forall a s1, k a s1 = k' a s1) -> bind m k s = bind m' k' s.
Proof.
  intros Hm Hk. unfold bind. rewrite Hm.
  destruct (m' s) as [s1 [a|e]]; auto.
Qed.

Lemma try_finally_ext {A : Type} (body body' : IO A) (c c' : IO unit) s :
  body s = body' s -> (forall s1, c s1 = c' s1) ->
  try_finally body c s = try_finally body' c' s.
Proof.
  intros Hb Hc. unfold try_finally. rewrite Hb.
  destruct (body' s) as [s1 r]. rewrite Hc. reflexivity.
Qed.

Lemma try_catch_ext {A : Type} (body body' : IO A) (h h' : exn -> IO A) s :
  body s = body' s -> (forall e s1, h e s1 = h' e s1) ->
  try_catch body h s = try_catch body' h' s.
Proof.
  intros Hb Hh. unfold try_catch. rewrite Hb.
  destruct (body' s) as [s1 [a|e]]; auto.
Qed.

(** A swallowed call leaves its trace and nothing else. *)
Lemma swallow_call w e s :
  swallow (call w e) s = (mkStore (log s ++ [e]) (drawn s), Return tt).
Proof.
  unfold swallow, try_catch, call, ret.
  destruct (succeeds w (length (log s)) e); reflexivity.
Qed.

Lemma cleanup_unlinks w a b s :
  allSettled [swallow (call w (Unlink a)); swallow (call w (Unlink b))] s
  = (mkStore (log s ++ [Unlink a; Unlink b]) (drawn s), Return tt).
Proof.
  cbn [allSettled]. unfold bind, try_catch.
  rewrite swallow_call. cbn [ret]. rewrite swallow_call. cbn [ret log drawn].
  rewrite <- app_assoc. reflexivity.
Qed.

Lemma try_finally_unlinks {A : Type} w (body : IO A) a b s :
  try_finally body
    (allSettled [swallow (call w (Unlink a)); swallow (call w (Unlink b))]) s
  = (mkStore (log (fst (body s)) ++ [Unlink a; Unlink b]) (drawn (fst (body s))),
     snd (body s)).
Proof.
  unfold try_finally. destruct (body s) as [s1 r].
  rewrite cleanup_unlinks. reflexivity.
Qed.

Lemma emits_ret {A : Type} P (a : A) : emits P (ret a).
Proof. intros s. exists []. simpl. rewrite app_nil_r. auto. Qed.

Lemma emits_throw {A : Type} P e : emits P (@throw A e).
Proof. intros s. exists []. simpl. rewrite app_nil_r. auto. Qed.

Lemma emits_call (P : event -> Prop) w e : P e -> emits P (call w e).
Proof. intros H s. exists [e]. simpl. auto. Qed.

Lemma emits_bind {A B : Type} P (m : IO A) (k : A -> IO B) :
  emits P m -> (forall a, emits P (k a)) -> emits P (bind m k).
Proof.
  intros Hm Hk s. unfold bind. destruct (Hm s) as (mid & Hl & Hd & HP).
  destruct (m s) as [s1 [a|e]]; simpl in *.
  - destruct (Hk a s1) as (mid' & Hl' & Hd' & HP').
    exists (mid ++ mid'). rewrite Hl', Hl, Hd', Hd, app_assoc.
    repeat split; auto. apply Forall_app; auto.
  - exists mid. auto.
Qed.

Lemma emits_convertToVoice w inputPath outputPath trimRange :
  emits (uses_only inputPath outputPath)
        (convertToVoice w inputPath outputPath trimRange).
Proof.
  intros s.
  destruct (convertToVoice_shape w inputPath outputPath s trimRange)
    as [(command & Hc & Hi & _)|Hc]; rewrite Hc.
  - apply emits_call. simpl. auto.
  - exists []. simpl. rewrite app_nil_r. auto.
Qed.

Create HintDb emits.
#[local] Hint Resolve emits_ret emits_throw emits_call emits_bind
  emits_convertToVoice : emits.

Lemma emits_body w fileId inputPath outputPath trimRange :
  emits (uses_only inputPath outputPath)
        (call w (GetFileLink fileId) ;;
         downloadFile w (file_link w fileId) inputPath ;;
         call w (SendChatAction (js "record_voice")) ;;
         convertToVoice w inputPath outputPath trimRange ;;
         call w (ReplyWithVoice outputPath)).
Proof.
  unfold downloadFile.
  repeat (apply emits_bind; [|intros _]);
    auto with emits; apply emits_call; simpl; auto.
Qed.

Lemma processAudio_unfold w fileId filenameHint trimRange s :
  succeeds w (length (log s)) (Mkdir (tmpRoot w)) = true ->
  exists inputPath outputPath s0,
    log s0 = log s ++ [Mkdir (tmpRoot w)] /\
    processAudio w fileId filenameHint trimRange s
    = try_finally
        (call w (GetFileLink fileId) ;;
         downloadFile w (file_link w fileId) inputPath ;;
         call w (SendChatAction (js "record_voice")) ;;
         convertToVoice w inputPath outputPath trimRange ;;
         call w (ReplyWithVoice outputPath))
        (allSettled [swallow (call w (Unlink inputPath));
                     swallow (call w (Unlink outputPath))]) s0.
Proof.
  intros Hmk. unfold processAudio.
  unfold bind at 1. unfold ensureTmpDir, call at 1. rewrite Hmk.
  unfold bind at 1. unfold buildTempPath at 1.
  unfold bind at 1. unfold buildTempPath at 1.
  do 3 eexists. split; [|reflexivity]. reflexivity.
Qed.

(** C7.  Once the temporary directory is there, every run of
    [processAudio], whichever of its calls fails (file link, download,
    chat action, transcoder, reply) or none, ends with
    the attempt to delete the input file and the attempt to delete the
    output file, the only two files the run wrote; and whether these
    deletions succeed changes nothing: the result of [processAudio] and
    everything the handlers send or log are the same. *)
Theorem temporary_files_always_unlinked :
  (forall w fileId filenameHint trimRange s,
      succeeds w (length (log s)) (Mkdir (tmpRoot w)) = true ->
      exists inputPath outputPath mid,
        log (fst (processAudio w fileId filenameHint trimRange s))
        = log s ++ Mkdir (tmpRoot w) :: mid ++ [Unlink inputPath; Unlink outputPath] /\
        Forall (uses_only inputPath outputPath) mid) /\
  (forall w f fileId filenameHint trimRange s,
      processAudio (with_unlink_outcomes w f) fileId filenameHint trimRange s
      = processAudio w fileId filenameHint trimRange s) /\
  (forall w f message s,
      on_audio (with_unlink_outcomes w f) message s = on_audio w message s) /\
  (forall w f message next s,
      on_document (with_unlink_outcomes w f) message next s
      = on_document w message next s).
Proof.
  assert (Hp : forall w f fileId filenameHint trimRange s,
             processAudio (with_unlink_outcomes w f) fileId filenameHint trimRange s
             = processAudio w fileId filenameHint trimRange s).
  { intros w f fileId filenameHint trimRange s. unfold processAudio.
    apply bind_ext; [reflexivity|intros _ s1].
    apply bind_ext; [reflexivity|intros inputPath s2].
    apply bind_ext; [reflexivity|intros outputPath s3].
    apply try_finally_ext; [reflexivity|intros s4].
    rewrite !cleanup_unlinks. reflexivity. }
  assert (Ha : forall w f a trimRange s,
             process_attachment (with_unlink_outcomes w f) a trimRange s
             = process_attachment w a trimRange s).
  { intros w f [a|] trimRange s; [apply Hp|reflexivity]. }
  split; [|split; [exact Hp|split]].
  - intros w fileId filenameHint trimRange s Hmk.
    destruct (@processAudio_unfold w fileId filenameHint trimRange s Hmk)
      as (inputPath & outputPath & s0 & Hs0 & ->).
    rewrite try_finally_unlinks. cbn [fst log].
    destruct (@emits_body w fileId inputPath outputPath trimRange s0)
      as (mid & Hl & _ & HP).
    exists inputPath, outputPath, mid. split; auto.
    rewrite Hl, Hs0. repeat rewrite <- app_assoc. reflexivity.
  - intros w f message s. unfold on_audio.
    destruct (extractTimecodesFromMessage message) as [trimRange|[m|m|n]];
      try reflexivity.
    apply try_catch_ext; [apply Ha|reflexivity].
  - intros w f message next s. unfold on_document.
    destruct (negb (isAudioDocument (document message))); [reflexivity|].
    destruct (extractTimecodesFromMessage message) as [trimRange|[m|m|n]];
      try reflexivity.
    apply try_catch_ext; [apply Ha|reflexivity].
Qed.

Lemma temporary_files_always_unlinked_witness :
  succeeds rough (length (log empty_store)) (Mkdir (tmpRoot rough)) = true /\
  exists inputPath outputPath mid,
    log (fst (processAudio rough (js "AgAD") (js "song.mp3") None empty_store))
    = log empty_store ++ Mkdir (tmpRoot rough) :: mid
      ++ [Unlink inputPath; Unlink outputPath] /\
    Forall (uses_only inputPath outputPath) mid.
Proof.
  split; [reflexivity|].
  exact (proj1 temporary_files_always_unlinked rough (js "AgAD") (js "song.mp3")
               None empty_store eq_refl).
Defined.

Example calm_run :
  processAudio calm (js "AgAD") (js "song.mp3") (Some (range 0 40)) empty_store
  = (mkStore
       [Mkdir (js "/tmp/audio-tools-bot");
        GetFileLink (js "AgAD");
        AxiosGet (js "https://files.example/AgAD");
        Pipeline (js "/tmp/audio-tools-bot/1700000000000-0b5e.mp3");
        SendChatAction (js "record_voice");
        FfmpegSave
          (mkCommand (js "/tmp/audio-tools-bot/1700000000000-0b5e.mp3")
             (Some (Fin 0)) (Some (Fin 40)) voice_options (Some (js "ogg")))
          (js "/tmp/audio-tools-bot/1700000000000-0b5e0.ogg");
        ReplyWithVoice (js "/tmp/audio-tools-bot/1700000000000-0b5e0.ogg");
        Unlink (js "/tmp/audio-tools-bot/1700000000000-0b5e.mp3");
        Unlink (js "/tmp/audio-tools-bot/1700000000000-0b5e0.ogg")]
       2,
     Return tt).
Proof. vm_compute. reflexivity. Qed.

Example rough_run :
  fst (processAudio rough (js "AgAD") (js "song.mp3") None empty_store)
  = mkStore
      [Mkdir (js "/tmp/audio-tools-bot");
       GetFileLink (js "AgAD");
       AxiosGet (js "https://files.example/AgAD");
       Pipeline (js "/tmp/audio-tools-bot/1700000000000-0b5e.mp3");
       Unlink (js "/tmp/audio-tools-bot/1700000000000-0b5e.mp3");
       Unlink (js "/tmp/audio-tools-bot/1700000000000-0b5e0.ogg")]
      2
  /\ snd (processAudio rough (js "AgAD") (js "song.mp3") None empty_store)
     = Throw (ExternalFailure 3).
Proof. vm_compute. split; reflexivity. Qed.

(* ================================================================== *)
(** ** Audio documents *)

Lemma run_seqs_cons r l x y :
  In y (run (seqs (r :: l)) x) <-> exists m, In m (run r x) /\ In y (run (seqs l) m).
Proof.
  destruct l as [|r' l].
  - cbn [seqs run]. split.
    + intros H. exists y. split; auto. left; auto.
    + intros (m & Hm & [<-|[]]). exact Hm.
  - change (seqs (r :: r' :: l)) with (Seq r (seqs (r' :: l))). apply run_seq.
Qed.

Lemma run_alts r l x y :
  In y (run (alts (r :: l)) x) <-> exists r', In r' (r :: l) /\ In y (run r' x).
Proof.
  revert r. induction l as [|r2 l IH]; intros r.
  - cbn [alts]. split.
    + intros H. exists r. split; auto. left; auto.
    + intros (r' & [<-|[]] & H). exact H.
  - change (alts (r :: r2 :: l)) with (Alt r (alts (r2 :: l))).
    rewrite run_alt, IH. split.
    + intros [H|(r' & Hr & H)].
      * exists r. split; auto. left; auto.
      * exists r'. split; auto. right; auto.
    + intros (r' & [<-|Hr] & H); [left; auto|].
      right. exists r'. auto.
Qed.

(** A literal word under the [i] flag takes a text that is the word up to
    the case of letters. *)
Lemma run_LitI lit : forall x y,
  In y (run (LitI lit) x) <->
  exists w, ahead x = w ++ ahead y /\ passed y = rev w ++ passed x /\
            caps y = caps x /\ map canonicalize w = map canonicalize lit.
Proof.
  unfold LitI. induction lit as [|c lit IH]; intros x y.
  - cbn [map seqs run]. split.
    + intros [<-|[]]. exists []. auto.
    + intros (w & Ha & Hp & Hc & Hw). destruct w; [|discriminate].
      left. apply mstate_eq; auto.
  - cbn [map]. rewrite run_seqs_cons. split.
    + intros (m & Hm & Hy). apply run_cls in Hm as (d & Hd & Ha & Hp & Hc).
      apply IH in Hy as (w & Ha' & Hp' & Hc' & Hw).
      apply N.eqb_eq in Hd.
      exists (d :: w). simpl. rewrite Ha, Ha', Hp', Hp, Hc', Hc, Hd, Hw, <- app_assoc.
      auto.
    + intros (w & Ha & Hp & Hc & Hw). destruct w as [|d w]; [discriminate|].
      simpl in Hw. injection Hw as Hd Hw.
      exists (MState (d :: passed x) (w ++ ahead y) (caps x)). split.
      * apply run_cls. exists d. simpl. rewrite Hd, N.eqb_refl. auto.
      * apply IH. exists w. simpl. simpl in Hp. rewrite <- app_assoc in Hp. auto.
Qed.

Lemma startsWith_spec : forall p s,
  startsWith s p = true <-> exists rest, s = p ++ rest.
Proof.
  induction p as [|a p IH]; intros s.
  - destruct s; simpl; split; eauto.
  - destruct s as [|b s]; simpl.
    + split; [discriminate|]. intros (rest & H). discriminate.
    + rewrite andb_true_iff, N.eqb_eq, IH. split.
      * intros [-> (rest & ->)]. eauto.
      * intros (rest & H). injection H as -> ->. eauto.
Qed.

Lemma endsWith_spec s suffix :
  endsWith s suffix = true <-> exists stem, s = stem ++ suffix.
Proof.
  unfold endsWith. rewrite startsWith_spec. split.
  - intros (rest & H). exists (rev rest).
    rewrite <- (rev_involutive s), H, rev_app_distr, rev_involutive. reflexivity.
  - intros (stem & ->). exists (rev stem). apply rev_app_distr.
Qed.

Ltac case_fold :=
  unfold canonicalize, lower, between;
  repeat (match goal with
          | |- context [(?a <=? ?b)%N] =>
              lazymatch a with
              | context [if _ then _ else _] => fail
              | _ => lazymatch b with
                     | context [if _ then _ else _] => fail
                     | _ => destruct (N.leb_spec a b)
                     end
              end
          end; cbn [andb] in *);
  try lia.

Lemma canonicalize_lower d : canonicalize (lower d) = canonicalize d.
Proof. case_fold. Qed.

Lemma canonicalize_eq_lower d c :
  lower c = c -> canonicalize d = canonicalize c -> lower d = c.
Proof. case_fold. Qed.

Lemma map_canonicalize_lower w lit :
  Forall (fun c => lower c = c) lit ->
  (map canonicalize w = map canonicalize lit <-> map lower w = lit).
Proof.
  intros Hl. revert w. induction Hl as [|c lit Hc Hl IH]; intros [|d w]; simpl;
    try (split; [reflexivity|reflexivity]); try (split; discriminate).
  split.
  - intros H. injection H as Hd Hw. f_equal; [|apply IH; auto].
    apply canonicalize_eq_lower; auto.
  - intros H. injection H as Hd Hw. f_equal; [|apply IH; auto].
    rewrite <- Hd. symmetry. apply canonicalize_lower.
Qed.

Lemma extensions_lower_case :
  Forall (fun ext => Forall (fun c => lower c = c) ext) audio_extensions.
Proof. repeat constructor. Qed.

Lemma extension_lower_case ext :
  In ext audio_extensions -> Forall (fun c => lower c = c) ext.
Proof.
  intros H. pose proof extensions_lower_case as HF.
  rewrite Forall_forall in HF. auto.
Qed.

(** Where the pattern of the audio extensions can match: before a dot and
    one of the extensions, in any case of letters, at the end of the text. *)
Lemma run_audio_ext x :
  (exists y, In y (run audio_ext_re x)) <->
  exists e w ext,
    ahead x = e :: w /\ lower e = dot /\
    In ext audio_extensions /\ map lower w = ext.
Proof.
  unfold audio_ext_re. cbn [seqs].
  change (map LitI audio_extensions)
    with (LitI (js "mp3") :: map LitI (tl audio_extensions)).
  split.
  - intros (y & H).
    apply run_seq in H as (m1 & H1 & H).
    apply run_cls in H1 as (e & He & Ha1 & _).
    apply N.eqb_eq in He.
    apply run_seq in H as (m2 & H2 & H).
    apply run_grp in H2 as (z & Hz & ->).
    apply run_alts in Hz as (r & Hr & Hz).
    change (LitI (js "mp3") :: map LitI (tl audio_extensions))
      with (map LitI audio_extensions) in Hr.
    apply in_map_iff in Hr as (ext & <- & Hext).
    apply run_LitI in Hz as (w & Haz & _ & _ & Hw).
    apply run_eoi in H as [_ Hend]. cbn [capture ahead] in Hend.
    rewrite Hend, app_nil_r in Haz. rewrite Haz in Ha1.
    exists e, w, ext. repeat split; auto.
    + apply canonicalize_eq_lower; auto.
    + apply (@map_canonicalize_lower w ext (@extension_lower_case ext Hext)). exact Hw.
  - intros (e & w & ext & Ha & He & Hext & Hw).
    set (m1 := MState (e :: passed x) w (caps x)).
    set (z := MState (rev w ++ passed m1) [] (caps m1)).
    exists (capture 1 m1 z).
    apply run_seq. exists m1. split.
    { apply run_cls. exists e. simpl. repeat split; auto.
      apply N.eqb_eq. rewrite <- He. symmetry. apply canonicalize_lower. }
    apply run_seq. exists (capture 1 m1 z). split.
    { apply run_grp. exists z. split; auto.
      apply run_alts. exists (LitI ext). split.
      - change (LitI (js "mp3") :: map LitI (tl audio_extensions))
          with (map LitI audio_extensions).
        apply in_map. exact Hext.
      - apply run_LitI. exists w. simpl. rewrite app_nil_r.
        repeat split; auto.
        apply (@map_canonicalize_lower w ext (@extension_lower_case ext Hext)). exact Hw. }
    apply run_eoi. split; reflexivity.
Qed.

(** [file_name.match(...)] is truthy exactly when the file name, with its
    ASCII letters in lower case, ends with a dot and one of the extensions. *)
Lemma match_audio_ext name :
  (exists m, string_match name audio_ext_re = Some m) <->
  existsb (fun ext => endsWith (map lower name) (dot :: ext)) audio_extensions = true.
Proof.
  rewrite existsb_exists. split.
  - intros (m & Hm). unfold string_match in Hm.
    destruct (exec_from audio_ext_re [] name) as [[x y]|] eqn:He; [|discriminate].
    apply exec_from_some in He as (pre & post & -> & -> & Hhd & _).
    assert (Hy : exists y, In y (run audio_ext_re (at_split [] pre post))).
    { destruct (run audio_ext_re (at_split [] pre post)); [discriminate|].
      eexists. left. reflexivity. }
    apply run_audio_ext in Hy as (e & w & ext & Ha & Hd & Hext & Hw).
    cbn [at_split ahead] in Ha. subst post.
    exists ext. split; auto. apply endsWith_spec.
    exists (map lower pre). rewrite map_app. simpl. rewrite Hd, Hw. reflexivity.
  - intros (ext & Hext & Hends). apply endsWith_spec in Hends as (stem & Hs).
    apply map_eq_app in Hs as (pre & rest & -> & _ & Hrest).
    apply map_eq_cons in Hrest as (e & w & -> & He & Hw).
    assert (Hy : exists y, In y (run audio_ext_re (at_split [] pre (e :: w)))).
    { apply run_audio_ext. exists e, w, ext. auto. }
    unfold string_match.
    destruct (exec_from audio_ext_re [] (pre ++ e :: w)) as [[x y]|] eqn:Hex.
    + eexists. reflexivity.
    + rewrite (@exec_from_none _ _ _ Hex pre (e :: w) eq_refl) in Hy.
      destruct Hy as (y & []).
Qed.

Lemma isAudioDocument_eq d :
  isAudioDocument (Some d) = audio_by_mime d || audio_by_name_ci d.
Proof.
  unfold isAudioDocument, audio_by_mime, audio_by_name_ci.
  assert (Hm : match mime_type d with
               | Some (c :: m) => startsWith (c :: m) (js "audio/")
               | _ => false
               end
               = match mime_type d with
                 | Some m => startsWith m (js "audio/")
                 | None => false
                 end)
    by (destruct (mime_type d) as [[|c m]|]; reflexivity).
  rewrite Hm.
  destruct (match mime_type d with Some m => startsWith m (js "audio/") | None => false end);
    [reflexivity|].
  cbn [orb]. destruct (file_name d) as [[|c n]|]; try reflexivity.
  pose proof (match_audio_ext (c :: n)) as H.
  destruct (string_match (c :: n) audio_ext_re) as [m|].
  - symmetry. apply H. eexists. reflexivity.
  - match goal with |- false = ?b => destruct b eqn:E end; auto.
    destruct (proj2 H eq_refl) as (m & Hm'). discriminate.
Qed.

(** C5 (as amended).  [isAudioDocument] takes a document for audio if and
    only if its MIME type starts with "audio/" or its file name ends, the
    case of ASCII letters set aside, with one of .mp3 .wav .m4a .flac .aac
    .ogg .oga; an absent document is not audio.  A document of type
    audio/mpeg whose name has no such extension is audio; a PDF of type
    application/pdf is not, and for any document that is not audio the
    document handler does nothing but pass the message to the next handler. *)
Theorem isAudioDocument_mime_or_extension :
  isAudioDocument None = false /\
  (forall d, isAudioDocument (Some d) = audio_by_mime d || audio_by_name_ci d) /\
  (forall d,
      isAudioDocument (Some d) = true <->
      (exists m rest, mime_type d = Some m /\ m = js "audio/" ++ rest) \/
      (exists n ext stem,
          file_name d = Some n /\ In ext audio_extensions /\
          map lower n = stem ++ dot :: ext)) /\
  isAudioDocument
    (Some (mkAttachment (js "BQAD") (js "uniq") (Some (js "voice.bin"))
                        (Some (js "audio/mpeg")))) = true /\
  isAudioDocument
    (Some (mkAttachment (js "BQAD") (js "uniq") (Some (js "notes.pdf"))
                        (Some (js "application/pdf")))) = false /\
  (forall w message next s,
      isAudioDocument (document message) = false ->
      on_document w message (Some next) s = next s).
Proof.
  split; [reflexivity|]. split; [exact isAudioDocument_eq|].
  split; [|split; [vm_compute; reflexivity|split; [vm_compute; reflexivity|]]].
  - intros d. rewrite isAudioDocument_eq, orb_true_iff.
    unfold audio_by_mime, audio_by_name_ci. split.
    + intros [H|H].
      * left. destruct (mime_type d) as [m|]; [|discriminate].
        apply startsWith_spec in H as (rest & ->). eauto.
      * right. destruct (file_name d) as [n|]; [|discriminate].
        apply existsb_exists in H as (ext & Hext & H).
        apply endsWith_spec in H as (stem & H). exists n, ext, stem. auto.
    + intros [(m & rest & -> & ->)|(n & ext & stem & -> & Hext & H)].
      * left. apply startsWith_spec. eauto.
      * right. apply existsb_exists. exists ext. split; auto.
        apply endsWith_spec. eauto.
  - intros w message next s H. unfold on_document. rewrite H. reflexivity.
Qed.

Lemma isAudioDocument_mime_or_extension_witness :
  let message :=
    mkMessage (Some (js "see 0:40")) None None
              (Some (mkAttachment (js "BQAD") (js "uniq") (Some (js "notes.pdf"))
                                  (Some (js "application/pdf")))) in
  isAudioDocument (document message) = false /\
  on_document calm message (Some (call calm (Reply Greeting))) empty_store
  = (mkStore [Reply Greeting] 0, Return tt).
Proof.
  intros message.
  assert (H : isAudioDocument (document message) = false) by (vm_compute; reflexivity).
  split; [exact H|].
  rewrite (proj2 (proj2 (proj2 (proj2 (proj2 isAudioDocument_mime_or_extension))))
                 calm message (call calm (Reply Greeting)) empty_store H).
  reflexivity.
Defined.

(** C5 as stated fails when the extension is in upper case: "SONG.MP3"
    without a MIME type is taken for audio, though the name does not end
    with any of the extensions as they are written. *)
Lemma upper_case_extension_is_audio :
  let d := mkAttachment (js "BQAD") (js "uniq") (Some (js "SONG.MP3")) None in
  isAudioDocument (Some d) = true /\
  audio_by_mime d || audio_by_name d = false.
Proof. vm_compute. split; reflexivity. Qed.

(* ================================================================== *)
(** ** Further properties of the timecode parser *)

(** X1.  Every range that [parseTimecodes] returns lies within four
    digits: [0 <= start < end <= 9999]. *)
Theorem parseTimecodes_range_bounds :
  forall rawText r,
    parseTimecodes rawText = Return (Some r) ->
    exists a b, r = range a b /\ (0 <= a)%Z /\ (a < b)%Z /\ (b <= 9999)%Z.
Proof.
  intros rawText r Hr.
  destruct (parseTimecodes_cases rawText)
    as [H|(text & pre & d1 & w1 & w2 & d2 & post & _ & [Hat _] & H)];
    rewrite H in Hr; [discriminate|].
  apply verdict_return in Hr as [Hlt Hr]. injection Hr as ->.
  destruct Hat as (_ & Hd1 & _ & _ & Hd2 & _).
  pose proof (decimal_token Hd1). pose proof (decimal_token Hd2).
  exists (decimal d1), (decimal d2). repeat split; auto; lia.
Qed.

Lemma parseTimecodes_range_bounds_witness :
  parseTimecodes (Some (js "9998 : 9999")) = Return (Some (range 9998 9999)) /\
  exists a b, range 9998 9999 = range a b /\ (0 <= a)%Z /\ (a < b)%Z /\ (b <= 9999)%Z.
Proof.
  assert (H : parseTimecodes (Some (js "9998 : 9999")) = Return (Some (range 9998 9999)))
    by (vm_compute; reflexivity).
  split; [exact H|].
  exact (@parseTimecodes_range_bounds (Some (js "9998 : 9999")) (range 9998 9999) H).
Defined.

(** X2.  [parseTimecodes] returns null on a text exactly when the text
    holds the pattern nowhere: a text that holds it gets a range or the
    error, never null. *)
Theorem parseTimecodes_null_iff_no_pattern :
  forall text,
    parseTimecodes (Some text) = Return None <->
    (forall pre d1 w1 w2 d2 post, ~ timecode_at text pre d1 w1 w2 d2 post).
Proof.
  intros text. split.
  - intros Hnull pre d1 w1 w2 d2 post Hat.
    destruct (timecode_or_not text)
      as [(pre0 & e1 & v1 & v2 & e2 & post0 & Hf)|Hno].
    + rewrite (parseTimecodes_first Hf) in Hnull.
      apply verdict_return in Hnull as [_ Hn]. discriminate.
    + exact (Hno _ _ _ _ _ _ Hat).
  - apply parseTimecodes_absent.
Qed.

Lemma parseTimecodes_null_iff_no_pattern_witness :
  parseTimecodes (Some (js "a0:40")) = Return None /\
  ~ timecode_at (js "a0:40") (js "a") (js "0") [] [] (js "40") [].
Proof.
  assert (H : parseTimecodes (Some (js "a0:40")) = Return None)
    by (vm_compute; reflexivity).
  split; [exact H|].
  exact (proj1 (parseTimecodes_null_iff_no_pattern (js "a0:40")) H
               (js "a") (js "0") [] [] (js "40") []).
Defined.

Lemma digits_not_blank v : forallb is_digit v = true -> blank v -> v = [].
Proof.
  destruct v as [|c v]; auto. simpl. intros Hd Hb.
  apply andb_prop in Hd as [Hc _]. unfold blank in Hb. simpl in Hb.
  rewrite (digit_not_space _ Hc) in Hb. discriminate.
Qed.

(** In a text made of two runs of digits around one colon the pattern can
    only be the whole text. *)
Lemma timecode_at_plain d1 d2 pre e1 v1 v2 e2 post :
  forallb is_digit d1 = true -> forallb is_digit d2 = true ->
  timecode_at (d1 ++ colon :: d2) pre e1 v1 v2 e2 post ->
  pre = [] /\ e1 = d1 /\ v1 = [] /\ v2 = [] /\ e2 = d2 /\ post = [].
Proof.
  intros Hd1 Hd2 (Hs & He1 & Hv1 & Hv2 & He2 & Hl & Hr).
  assert (Hcol : forall l r, forallb is_digit (l ++ colon :: r) = true -> False).
  { intros l r H. rewrite forallb_app in H. apply andb_prop in H as [_ H].
    simpl in H. discriminate. }
  replace (pre ++ e1 ++ v1 ++ colon :: v2 ++ e2 ++ post)
    with ((pre ++ e1 ++ v1) ++ colon :: (v2 ++ e2 ++ post)) in Hs
    by (repeat rewrite <- app_assoc; reflexivity).
  assert (Hboth : d1 = pre ++ e1 ++ v1 /\ d2 = v2 ++ e2 ++ post).
  { apply app_eq_app in Hs as [l [[H1 H2]|[H1 H2]]].
    - destruct l as [|c l]; simpl in H2.
      + injection H2 as H2. rewrite app_nil_r in H1. auto.
      + injection H2 as Hc H2. exfalso. subst d1. rewrite <- Hc in Hd1.
        exact (Hcol _ _ Hd1).
    - destruct l as [|c l]; simpl in H2.
      + injection H2 as H2. rewrite app_nil_r in H1. auto.
      + injection H2 as Hc H2. exfalso. subst d2. exact (Hcol _ _ Hd2). }
  destruct Hboth as [H1 H2]. subst d1 d2.
  repeat rewrite forallb_app in Hd1. repeat rewrite forallb_app in Hd2.
  apply andb_prop in Hd1 as [Hpre Hd1]. apply andb_prop in Hd1 as [_ Hv1d].
  apply andb_prop in Hd2 as [Hv2d Hd2]. apply andb_prop in Hd2 as [_ Hpost].
  pose proof (@digits_not_blank v1 Hv1d Hv1) as ->.
  pose proof (@digits_not_blank v2 Hv2d Hv2) as ->.
  assert (pre = []) as ->.
  { destruct pre as [|c pre]; auto.
    rewrite (@last_digit_word (c :: pre)) in Hl; [discriminate|discriminate|exact Hpre]. }
  assert (post = []) as ->.
  { destruct post as [|c post]; auto. simpl in Hpost, Hr.
    apply andb_prop in Hpost as [Hc _]. rewrite (digit_is_word _ Hc) in Hr.
    discriminate. }
  repeat rewrite app_nil_r. simpl. repeat split; reflexivity.
Qed.

(** X3.  On a text that is two runs of digits around a colon, the parser
    gives its verdict on the two numbers when both runs have one to four
    digits, and null otherwise: a run of five digits or more is not cut
    down to four, the text is left aside. *)
Theorem parseTimecodes_plain_pair :
  forall d1 d2,
    forallb is_digit d1 = true -> forallb is_digit d2 = true ->
    parseTimecodes (Some (d1 ++ colon :: d2))
    = if digits_within d1 && digits_within d2
      then verdict (decimal d1) (decimal d2)
      else Return None.
Proof.
  intros d1 d2 Hd1 Hd2.
  destruct (digits_within d1 && digits_within d2) eqn:Hlen.
  - apply andb_prop in Hlen as [H1 H2]. unfold digits_within in H1, H2.
    apply andb_prop in H1 as [H1a H1b]. apply andb_prop in H2 as [H2a H2b].
    apply Nat.leb_le in H1a, H1b, H2a, H2b.
    apply (@parseTimecodes_first (d1 ++ colon :: d2) [] d1 [] [] d2 []).
    split.
    + unfold timecode_at, token, blank. simpl. rewrite app_nil_r.
      repeat split; auto.
    + intros; simpl; lia.
  - apply parseTimecodes_absent. intros pre e1 v1 v2 e2 post Hat.
    pose proof Hat as (_ & [_ He1] & _ & _ & [_ He2] & _).
    destruct (@timecode_at_plain d1 d2 pre e1 v1 v2 e2 post Hd1 Hd2 Hat)
      as (_ & -> & _ & _ & -> & _).
    unfold digits_within in Hlen. apply andb_false_iff in Hlen as [H|H];
      apply andb_false_iff in H as [H|H]; apply Nat.leb_gt in H; lia.
Qed.

Lemma parseTimecodes_plain_pair_witness :
  forallb is_digit (js "12345") = true /\ forallb is_digit (js "6") = true /\
  parseTimecodes (Some (js "12345:6")) = Return None.
Proof.
  split; [reflexivity|]. split; [reflexivity|].
  exact (@parseTimecodes_plain_pair (js "12345") (js "6") eq_refl eq_refl).
Defined.

(* ================================================================== *)
(** ** Further properties: the text of a message, the transcoder *)

Lemma verdict_cases a b :
  (exists r, verdict a b = Return (Some r)) \/
  verdict a b = Throw (TimecodeParseError EndMustExceedStart).
Proof. unfold verdict. destruct (b <=? a)%Z; eauto. Qed.

(** The parser throws nothing but its own error. *)
Lemma parseTimecodes_shape rawText :
  (exists r, parseTimecodes rawText = Return r) \/
  parseTimecodes rawText = Throw (TimecodeParseError EndMustExceedStart).
Proof.
  destruct (parseTimecodes_cases rawText)
    as [H|(text & pre & d1 & w1 & w2 & d2 & post & _ & _ & H)]; rewrite H.
  - eauto.
  - destruct (verdict_cases (decimal d1) (decimal d2)) as [[r Hr]|Hr];
      rewrite Hr; eauto.
Qed.

Lemma extract_is_parse message :
  extractTimecodesFromMessage message
  = parseTimecodes (Some (or_undef (caption message) (or_undef (text message) []))).
Proof.
  unfold extractTimecodesFromMessage.
  destruct (parseTimecodes_shape
              (Some (or_undef (caption message) (or_undef (text message) []))))
    as [[r Hr]|Hr]; rewrite Hr; reflexivity.
Qed.

(** X4.  [extractTimecodesFromMessage] is the parser on the caption when
    the message has a non-empty caption, whatever its text, and on the text
    otherwise; it never throws the wrapped "unexpected" error nor anything
    but the parser's own error. *)
Theorem extract_prefers_caption :
  (forall c t txt a d,
      extractTimecodesFromMessage (mkMessage (Some (c :: t)) txt a d)
      = parseTimecodes (Some (c :: t))) /\
  (forall txt a d,
      extractTimecodesFromMessage (mkMessage None txt a d) = parseTimecodes txt /\
      extractTimecodesFromMessage (mkMessage (Some []) txt a d) = parseTimecodes txt) /\
  (forall message,
      (exists r, extractTimecodesFromMessage message = Return r) \/
      extractTimecodesFromMessage message
      = Throw (TimecodeParseError EndMustExceedStart)).
Proof.
  split; [|split].
  - intros c t txt a d. rewrite extract_is_parse. reflexivity.
  - intros txt a d. rewrite !extract_is_parse. cbn [caption text or_undef].
    destruct txt as [[|c t]|]; split; reflexivity.
  - intros message. rewrite extract_is_parse. apply parseTimecodes_shape.
Qed.

(** X5.  A range that lacks a bound: with only an end, [convertToVoice]
    counts from 0, sets the duration to the end and no start time, and
    refuses an end that is not positive; with only a start it sets the
    start time and no duration; an end that is NaN is not refused, the
    duration NaN is passed to the transcoder. *)
Theorem convertToVoice_partial_range :
  forall w inputPath outputPath s,
    (forall e, (0 < e)%Z ->
        convertToVoice w inputPath outputPath
                       (Some (mkTrimRange VUndefined (VNumber (Fin e)))) s
        = call w (FfmpegSave (voice_command inputPath None (Some (Fin e))) outputPath) s) /\
    (forall e, (e <= 0)%Z ->
        convertToVoice w inputPath outputPath
                       (Some (mkTrimRange VUndefined (VNumber (Fin e)))) s
        = (s, Throw (Error InvalidTrimInterval))) /\
    (forall a,
        convertToVoice w inputPath outputPath
                       (Some (mkTrimRange (VNumber a) VUndefined)) s
        = call w (FfmpegSave (voice_command inputPath (Some a) None) outputPath) s) /\
    (forall a,
        convertToVoice w inputPath outputPath
                       (Some (mkTrimRange (VNumber a) (VNumber NaN))) s
        = call w (FfmpegSave (voice_command inputPath (Some a) (Some NaN)) outputPath) s).
Proof.
  intros w inputPath outputPath s. split; [|split; [|split]].
  - intros e He. unfold convertToVoice. cbn [start end_ typeof_number num_sub num_le].
    rewrite Z.sub_0_r. destruct (Z.leb_spec e 0); [lia|]. reflexivity.
  - intros e He. unfold convertToVoice. cbn [start end_ typeof_number num_sub num_le].
    rewrite Z.sub_0_r. destruct (Z.leb_spec e 0); [|lia]. reflexivity.
  - intros a. reflexivity.
  - intros [|a]; reflexivity.
Qed.

Lemma convertToVoice_partial_range_witness :
  (0 < 30)%Z /\
  log (fst (convertToVoice calm (js "/tmp/in.mp3") (js "/tmp/out.ogg")
              (Some (mkTrimRange VUndefined (VNumber (Fin 30)))) empty_store))
  = [FfmpegSave (voice_command (js "/tmp/in.mp3") None (Some (Fin 30)))
                (js "/tmp/out.ogg")].
Proof.
  split; [reflexivity|].
  rewrite (proj1 (convertToVoice_partial_range calm (js "/tmp/in.mp3")
                    (js "/tmp/out.ogg") empty_store) 30%Z eq_refl).
  reflexivity.
Defined.

(** What the parser returns is a range of two whole numbers within four
    digits. *)
Lemma returned_range rawText r :
  parseTimecodes rawText = Return (Some r) ->
  exists a b, r = range a b /\ (0 <= a)%Z /\ (a < b)%Z /\ (b <= 9999)%Z.
Proof.
  intros Hr.
  destruct (parseTimecodes_cases rawText)
    as [H|(text & pre & d1 & w1 & w2 & d2 & post & _ & [Hat _] & H)];
    rewrite H in Hr; [discriminate|].
  apply verdict_return in Hr as [Hlt Hr]. injection Hr as ->.
  destruct Hat as (_ & Hd1 & _ & _ & Hd2 & _).
  pose proof (decimal_token Hd1). pose proof (decimal_token Hd2).
  exists (decimal d1), (decimal d2). repeat split; auto; lia.
Qed.

Lemma convertToVoice_range w inputPath outputPath a b s :
  (a < b)%Z ->
  convertToVoice w inputPath outputPath (Some (range a b)) s
  = call w (FfmpegSave (voice_command inputPath (Some (Fin a)) (Some (Fin (b - a))))
                       outputPath) s.
Proof.
  intros Hab. unfold convertToVoice, range.
  cbn [start end_ typeof_number num_sub num_le].
  destruct (Z.leb_spec (b - a) 0); [lia|]. reflexivity.
Qed.

(** X6.  The parser and the transcoder fit: a range that [parseTimecodes]
    returns is never refused by [convertToVoice]; the transcoder is called
    with the start of the range and a duration from 1 to 9999 seconds. *)
Theorem parsed_range_is_transcoded :
  forall rawText r,
    parseTimecodes rawText = Return (Some r) ->
    exists a b,
      r = range a b /\ (1 <= b - a <= 9999)%Z /\
      forall w inputPath outputPath s,
        convertToVoice w inputPath outputPath (Some r) s
        = call w (FfmpegSave
                    (voice_command inputPath (Some (Fin a)) (Some (Fin (b - a))))
                    outputPath) s.
Proof.
  intros rawText r Hr.
  destruct (returned_range _ Hr) as (a & b & -> & Ha & Hab & Hb).
  exists a, b. split; [reflexivity|]. split; [lia|].
  intros w inputPath outputPath s. apply convertToVoice_range. exact Hab.
Qed.

Lemma parsed_range_is_transcoded_witness :
  parseTimecodes (Some (js "cut 10:25")) = Return (Some (range 10 25)) /\
  exists a b,
    range 10 25 = range a b /\ (1 <= b - a <= 9999)%Z /\
    forall w inputPath outputPath s,
      convertToVoice w inputPath outputPath (Some (range 10 25)) s
      = call w (FfmpegSave
                  (voice_command inputPath (Some (Fin a)) (Some (Fin (b - a))))
                  outputPath) s.
Proof.
  assert (H : parseTimecodes (Some (js "cut 10:25")) = Return (Some (range 10 25)))
    by (vm_compute; reflexivity).
  split; [exact H|].
  exact (@parsed_range_is_transcoded (Some (js "cut 10:25")) (range 10 25) H).
Defined.

(* ================================================================== *)
(** ** Further properties: temporary paths and the run of processAudio *)







Lemma call_eq w e s :
  call w e s
  = (mkStore (log s ++ [e]) (drawn s),
     if succeeds w (length (log s)) e then Return tt
     else Throw (ExternalFailure (length (log s)))).
Proof. reflexivity. Qed.

Lemma bind_call {B : Type} w e (k : unit -> IO B) s :
  bind (call w e) k s
  = if succeeds w (length (log s)) e
    then k tt (mkStore (log s ++ [e]) (drawn s))
    else (mkStore (log s ++ [e]) (drawn s), Throw (ExternalFailure (length (log s)))).
Proof.
  unfold bind. rewrite call_eq. destruct (succeeds w (length (log s)) e); reflexivity.
Qed.

(** The body of [processAudio] makes the calls of its plan in order, each
    one only when those before it succeeded. *)
Lemma body_attempted w fileId inputPath outputPath trimRange c s0 :
  (forall s', convertToVoice w inputPath outputPath trimRange s'
              = call w (FfmpegSave c outputPath) s') ->
  (call w (GetFileLink fileId) ;;
   downloadFile w (file_link w fileId) inputPath ;;
   call w (SendChatAction (js "record_voice")) ;;
   convertToVoice w inputPath outputPath trimRange ;;
   call w (ReplyWithVoice outputPath)) s0
  = (mkStore
       (log s0 ++ attempted w (log s0)
                    (plan w fileId inputPath outputPath [FfmpegSave c outputPath]))
       (drawn s0),
     outcome w (log s0)
             (plan w fileId inputPath outputPath [FfmpegSave c outputPath])).
Proof.
  intros Hconv. unfold plan, downloadFile. cbn [app attempted outcome].
  rewrite bind_call.
  destruct (succeeds w (length (log s0)) (GetFileLink fileId)); [|reflexivity].
  unfold bind at 1. rewrite bind_call. cbn [log drawn].
  destruct (succeeds w (length (log s0 ++ [GetFileLink fileId])) _);
    [|rewrite <- app_assoc; reflexivity].
  rewrite call_eq. cbn [log drawn].
  destruct (succeeds w _ (Pipeline inputPath));
    [|repeat rewrite <- app_assoc; reflexivity].
  rewrite bind_call. cbn [log drawn].
  destruct (succeeds w _ (SendChatAction _));
    [|repeat rewrite <- app_assoc; reflexivity].
  unfold bind. rewrite Hconv, call_eq. cbn [log drawn].
  destruct (succeeds w _ (FfmpegSave c outputPath));
    [|repeat rewrite <- app_assoc; reflexivity].
  rewrite call_eq. cbn [log drawn].
  destruct (succeeds w _ (ReplyWithVoice outputPath));
    repeat rewrite <- app_assoc; reflexivity.
Qed.

Lemma processAudio_eq w fileId filenameHint trimRange s :
  succeeds w (length (log s)) (Mkdir (tmpRoot w)) = true ->
  processAudio w fileId filenameHint trimRange s
  = try_finally
      (call w (GetFileLink fileId) ;;
       downloadFile w (file_link w fileId) (input_path w filenameHint s) ;;
       call w (SendChatAction (js "record_voice")) ;;
       convertToVoice w (input_path w filenameHint s) (output_path w s) trimRange ;;
       call w (ReplyWithVoice (output_path w s)))
      (allSettled [swallow (call w (Unlink (input_path w filenameHint s)));
                   swallow (call w (Unlink (output_path w s)))])
      (mkStore (log s ++ [Mkdir (tmpRoot w)]) (S (S (drawn s)))).
Proof.
  intros Hmk. unfold processAudio.
  unfold bind at 1. unfold ensureTmpDir, call at 1. rewrite Hmk.
  unfold bind at 1. unfold buildTempPath at 1.
  unfold bind at 1. unfold buildTempPath at 1.
  reflexivity.
Qed.



(** X9.  When the directory cannot be made, [processAudio] stops there
    with that failure: no name is drawn, nothing is downloaded and no
    deletion is tried; the handler then logs the error and sends its
    apology, and that is all it does. *)
Theorem processAudio_without_directory :
  forall w s,
    succeeds w (length (log s)) (Mkdir (tmpRoot w)) = false ->
    (forall fileId filenameHint trimRange,
        processAudio w fileId filenameHint trimRange s
        = (mkStore (log s ++ [Mkdir (tmpRoot w)]) (drawn s),
           Throw (ExternalFailure (length (log s))))) /\
    (forall message a trimRange,
        audio message = Some a ->
        extractTimecodesFromMessage message = Return trimRange ->
        fst (on_audio w message s)
        = mkStore (log s ++ [Mkdir (tmpRoot w); ConsoleError HandleAudio;
                             Reply ProcessingFailed])
                  (drawn s)).
Proof.
  intros w s Hmk.
  assert (Hp : forall fileId filenameHint trimRange,
             processAudio w fileId filenameHint trimRange s
             = (mkStore (log s ++ [Mkdir (tmpRoot w)]) (drawn s),
                Throw (ExternalFailure (length (log s))))).
  { intros. unfold processAudio, ensureTmpDir. rewrite bind_call, Hmk. reflexivity. }
  split; [exact Hp|].
  intros message a trimRange Ha He. unfold on_audio. rewrite He, Ha.
  unfold try_catch, process_attachment. rewrite Hp.
  unfold bind, console_error. rewrite call_eq. cbn [log drawn fst].
  repeat rewrite <- app_assoc. reflexivity.
Qed.

Lemma processAudio_without_directory_witness :
  let w := mkWorld (js "/tmp") (fun _ => js ".mp3") (fun _ => js "n")
                   (fun id => id)
                   (fun _ e => match e with Mkdir _ => false | _ => true end) in
  succeeds w (length (log empty_store)) (Mkdir (tmpRoot w)) = false /\
  processAudio w (js "AgAD") (js "song.mp3") None empty_store
  = (mkStore [Mkdir (tmpRoot w)] 0, Throw (ExternalFailure 0)).
Proof.
  intros w. split; [reflexivity|].
  exact (proj1 (@processAudio_without_directory w empty_store eq_refl)
               (js "AgAD") (js "song.mp3") None).
Defined.

(* ================================================================== *)
(** ** Further properties: what the handlers send *)

Lemma on_audio_handle w message :
  on_audio w message = handle w message (audio message) HandleAudio.
Proof. reflexivity. Qed.

Lemma on_document_handle w message next :
  isAudioDocument (document message) = true ->
  on_document w message next = handle w message (document message) HandleDocument.
Proof. intros H. unfold on_document. rewrite H. reflexivity. Qed.

Lemma on_document_next w message next :
  isAudioDocument (document message) = false ->
  on_document w message next = match next with Some k => k | None => ret tt end.
Proof. intros H. unfold on_document. rewrite H. reflexivity. Qed.

Lemma adds_weaken {A : Type} (P Q : event -> Prop) (m : IO A) :
  (forall e, P e -> Q e) -> adds P m -> adds Q m.
Proof.
  intros HPQ Hm s. destruct (Hm s) as (mid & Hl & HP).
  exists mid. split; auto. eapply Forall_impl; eauto.
Qed.

Lemma adds_ret {A : Type} P (a : A) : adds P (ret a).
Proof. intros s. exists []. simpl. rewrite app_nil_r. auto. Qed.

Lemma adds_throw {A : Type} P e : adds P (@throw A e).
Proof. intros s. exists []. simpl. rewrite app_nil_r. auto. Qed.

Lemma adds_call (P : event -> Prop) w e : P e -> adds P (call w e).
Proof. intros H s. exists [e]. simpl. auto. Qed.

Lemma adds_console (P : event -> Prop) tag :
  P (ConsoleError tag) -> adds P (console_error tag).
Proof. intros H s. exists [ConsoleError tag]. simpl. auto. Qed.

Lemma adds_buildTempPath P w ext : adds P (buildTempPath w ext).
Proof. intros s. exists []. simpl. rewrite app_nil_r. auto. Qed.

Lemma adds_bind {A B : Type} P (m : IO A) (k : A -> IO B) :
  adds P m -> (forall a, adds P (k a)) -> adds P (bind m k).
Proof.
  intros Hm Hk s. unfold bind. destruct (Hm s) as (mid & Hl & HP).
  destruct (m s) as [s1 [a|e]]; simpl in *.
  - destruct (Hk a s1) as (mid' & Hl' & HP').
    exists (mid ++ mid'). rewrite Hl', Hl, app_assoc.
    split; auto. apply Forall_app; auto.
  - exists mid. auto.
Qed.

Lemma adds_try_catch {A : Type} P (m : IO A) (h : exn -> IO A) :
  adds P m -> (forall e, adds P (h e)) -> adds P (try_catch m h).
Proof.
  intros Hm Hh s. unfold try_catch. destruct (Hm s) as (mid & Hl & HP).
  destruct (m s) as [s1 [a|e]]; simpl in *.
  - exists mid. auto.
  - destruct (Hh e s1) as (mid' & Hl' & HP').
    exists (mid ++ mid'). rewrite Hl', Hl, app_assoc.
    split; auto. apply Forall_app; auto.
Qed.

Lemma adds_try_finally {A : Type} P (m : IO A) (c : IO unit) :
  adds P m -> adds P c -> adds P (try_finally m c).
Proof.
  intros Hm Hc s. unfold try_finally. destruct (Hm s) as (mid & Hl & HP).
  destruct (m s) as [s1 r]. simpl in *.
  destruct (Hc s1) as (mid' & Hl' & HP').
  destruct (c s1) as [s2 [u|e]]; simpl in *;
    exists (mid ++ mid'); rewrite Hl', Hl, app_assoc;
    (split; auto; apply Forall_app; auto).
Qed.

(** The events of [processAudio] are of any kind to which the calls it
    makes belong. *)
Lemma adds_processAudio (P : event -> Prop) w fileId filenameHint trimRange :
  (forall e, processing_event e ->
             match e with FfmpegSave _ _ => True | _ => P e end) ->
  (forall i o, adds P (convertToVoice w i o trimRange)) ->
  adds P (processAudio w fileId filenameHint trimRange).
Proof.
  intros HP Hconv. unfold processAudio, ensureTmpDir, downloadFile, swallow.
  cbn [allSettled].
  repeat first
    [ apply adds_bind; [|intros ?]
    | apply adds_try_finally
    | apply adds_try_catch; [|intros ?]
    | apply adds_buildTempPath
    | apply adds_ret
    | apply Hconv
    | apply adds_call; match goal with |- P ?e => apply (HP e); exact I end ].
Qed.

Lemma adds_convertToVoice_processing w i o trimRange :
  adds processing_event (convertToVoice w i o trimRange).
Proof.
  intros s.
  destruct (convertToVoice_shape w i o s trimRange)
    as [(command & Hc & _)|Hc]; rewrite Hc.
  - apply adds_call. exact I.
  - exists []. simpl. rewrite app_nil_r. auto.
Qed.

Lemma adds_processAudio_processing w fileId filenameHint trimRange :
  adds processing_event (processAudio w fileId filenameHint trimRange).
Proof.
  apply adds_processAudio.
  - intros [] H; auto.
  - intros i o. apply adds_convertToVoice_processing.
Qed.

Lemma adds_process_attachment P w a trimRange :
  (forall fileId filenameHint, adds P (processAudio w fileId filenameHint trimRange)) ->
  adds P (process_attachment w a trimRange).
Proof.
  intros H. destruct a as [a|]; simpl; [apply H|apply adds_throw].
Qed.

Lemma extract_shape message :
  (exists r, extractTimecodesFromMessage message = Return r) \/
  extractTimecodesFromMessage message = Throw (TimecodeParseError EndMustExceedStart).
Proof. rewrite extract_is_parse. apply parseTimecodes_shape. Qed.

Lemma adds_handle_no_trouble w message a tag :
  tag = HandleAudio \/ tag = HandleDocument ->
  adds not_parse_trouble (handle w message a tag).
Proof.
  intros Htag. unfold handle. destruct (extract_shape message) as [[r Hr]|Hr]; rewrite Hr.
  - apply adds_try_catch.
    + apply adds_process_attachment. intros fileId filenameHint.
      apply (adds_weaken (P := processing_event)).
      * intros [] H; try exact I; destruct H.
      * apply adds_processAudio_processing.
    + intros e. apply adds_bind; [|intros _].
      * apply adds_console. destruct Htag as [->| ->]; exact I.
      * apply adds_call. exact I.
  - apply adds_call. exact I.
Qed.

(** X10.  The handlers never take the branch for an "unexpected" error of
    the parser: they never send the reply 'Произошла ошибка при разборе
    таймкодов' and never write the parse error to the console, whatever
    the message and whatever fails outside. *)
Theorem handlers_never_report_parse_trouble :
  forall w message,
    adds not_parse_trouble (on_audio w message) /\
    adds not_parse_trouble (on_document w message None) /\
    (forall next, adds not_parse_trouble next ->
                  adds not_parse_trouble (on_document w message (Some next))).
Proof.
  intros w message. split; [|split].
  - rewrite on_audio_handle. apply adds_handle_no_trouble. auto.
  - destruct (isAudioDocument (document message)) eqn:Ha.
    + rewrite (on_document_handle w message None Ha).
      apply adds_handle_no_trouble. auto.
    + rewrite (on_document_next w message None Ha). apply adds_ret.
  - intros next Hnext. destruct (isAudioDocument (document message)) eqn:Ha.
    + rewrite (on_document_handle w message (Some next) Ha).
      apply adds_handle_no_trouble. auto.
    + rewrite (on_document_next w message (Some next) Ha). exact Hnext.
Qed.

Lemma handlers_never_report_parse_trouble_witness :
  adds not_parse_trouble (call calm (Reply Greeting)) /\
  adds not_parse_trouble
       (on_document calm (mkMessage None None None None)
                    (Some (call calm (Reply Greeting)))).
Proof.
  assert (H : adds not_parse_trouble (call calm (Reply Greeting)))
    by (apply adds_call; exact I).
  split; [exact H|].
  exact (proj2 (proj2 (handlers_never_report_parse_trouble calm
                         (mkMessage None None None None))) _ H).
Defined.

Lemma adds_convertToVoice_parsed w i o message trimRange :
  extractTimecodesFromMessage message = Return trimRange ->
  adds (carries_trim trimRange) (convertToVoice w i o trimRange).
Proof.
  intros He. rewrite extract_is_parse in He. destruct trimRange as [r|].
  - destruct (returned_range _ He) as (a & b & -> & Ha & Hab & Hb).
    intros s. rewrite (convertToVoice_range w i o s Hab).
    apply adds_call. exists a, b. repeat split; auto; lia.
  - apply adds_call. split; reflexivity.
Qed.

Lemma adds_handle_trim w message a tag trimRange :
  extractTimecodesFromMessage message = Return trimRange ->
  adds (carries_trim trimRange) (handle w message a tag).
Proof.
  intros He. unfold handle. rewrite He. apply adds_try_catch.
  - apply adds_process_attachment. intros fileId filenameHint.
    apply adds_processAudio.
    + intros [] H; exact I.
    + intros i o. apply (adds_convertToVoice_parsed w i o message He).
  - intros e. apply adds_bind; [|intros _].
    + apply adds_console. exact I.
    + apply adds_call. exact I.
Qed.

(** X11.  Every transcoder command a handler issues carries the trim that
    the caption asks for: without a timecode in the caption or text it has
    neither start time nor duration (the whole file is transcoded); with
    the leftmost timecode a:b parsed, its start time is a and its duration
    b - a, from 1 to 9999 seconds. *)
Theorem handlers_transcode_with_parsed_trim :
  forall w message trimRange,
    extractTimecodesFromMessage message = Return trimRange ->
    adds (carries_trim trimRange) (on_audio w message) /\
    (forall next,
        isAudioDocument (document message) = true ->
        adds (carries_trim trimRange) (on_document w message next)).
Proof.
  intros w message trimRange He. split.
  - rewrite on_audio_handle. apply adds_handle_trim. exact He.
  - intros next Ha. rewrite (on_document_handle w message next Ha).
    apply adds_handle_trim. exact He.
Qed.

Lemma handlers_transcode_with_parsed_trim_witness :
  let message := mkMessage (Some (js "from 5:65")) None (Some song) None in
  extractTimecodesFromMessage message = Return (Some (range 5 65)) /\
  adds (carries_trim (Some (range 5 65))) (on_audio calm message).
Proof.
  intros message.
  assert (H : extractTimecodesFromMessage message = Return (Some (range 5 65)))
    by (vm_compute; reflexivity).
  split; [exact H|].
  exact (proj1 (@handlers_transcode_with_parsed_trim calm message _ H)).
Defined.

Lemma handle_throws w message a tag s e :
  snd (handle w message a tag s) = Throw e ->
  exists l t,
    log (fst (handle w message a tag s)) = l ++ [Reply t] /\
    e = ExternalFailure (length l) /\ succeeds w (length l) (Reply t) = false.
Proof.
  unfold handle. destruct (extract_shape message) as [[r Hr]|Hr]; rewrite Hr.
  - unfold try_catch. destruct (process_attachment w a r s) as [s1 [u|e']].
    + discriminate.
    + unfold bind, console_error. rewrite call_eq. cbn [log drawn fst snd].
      destruct (succeeds w (length (log s1 ++ [ConsoleError tag]))
                         (Reply ProcessingFailed)) eqn:Hs; [discriminate|].
      intros H. injection H as <-.
      exists (log s1 ++ [ConsoleError tag]), ProcessingFailed. auto.
  - rewrite call_eq. cbn [log fst snd].
    destruct (succeeds w (length (log s)) (Reply TimecodeHint)) eqn:Hs; [discriminate|].
    intros H. injection H as <-. exists (log s), TimecodeHint. auto.
Qed.

(** X12.  A failure of the download, of the transcoder or of any other
    call of [processAudio] never leaves a handler: a handler throws only
    when its own text reply to the user, the last call it made, failed,
    and then it throws that failure. *)
Theorem handler_throws_only_failed_reply :
  forall w message s e,
    (snd (on_audio w message s) = Throw e ->
     exists l t,
       log (fst (on_audio w message s)) = l ++ [Reply t] /\
       e = ExternalFailure (length l) /\ succeeds w (length l) (Reply t) = false) /\
    (isAudioDocument (document message) = true ->
     forall next,
       snd (on_document w message next s) = Throw e ->
       exists l t,
         log (fst (on_document w message next s)) = l ++ [Reply t] /\
         e = ExternalFailure (length l) /\ succeeds w (length l) (Reply t) = false).
Proof.
  intros w message s e. split.
  - rewrite on_audio_handle. apply handle_throws.
  - intros Ha next. rewrite (on_document_handle w message next Ha).
    apply handle_throws.
Qed.

Lemma handler_throws_only_failed_reply_witness :
  let w := mkWorld (js "/tmp") (fun _ => js ".mp3") (fun _ => js "n") (fun id => id)
                   (fun _ e => match e with Reply _ => false | _ => true end) in
  let message := mkMessage (Some (js "9:3")) None (Some song) None in
  snd (on_audio w message empty_store) = Throw (ExternalFailure 0) /\
  exists l t,
    log (fst (on_audio w message empty_store)) = l ++ [Reply t] /\
    ExternalFailure 0 = ExternalFailure (length l) /\
    succeeds w (length l) (Reply t) = false.
Proof.
  intros w message.
  assert (H : snd (on_audio w message empty_store) = Throw (ExternalFailure 0))
    by (vm_compute; reflexivity).
  split; [exact H|].
  exact (proj1 (handler_throws_only_failed_reply w message empty_store
                  (ExternalFailure 0)) H).
Defined.







(* ================================================================== *)
(** ** Further properties: the older copy *)

Lemma older_processAudio_eq w fileId filenameHint s :
  Part000.processAudio w fileId filenameHint s
  = processAudio w fileId filenameHint None s.
Proof. reflexivity. Qed.

(** X14.  The bot with trimming does what the older copy does whenever the
    caption and text hold no timecode: [processAudio] without a range is
    the [processAudio] of the older copy, and on a message on which the
    parser returns null the audio and document handlers of the two files
    make the same calls and end alike. *)
Theorem bot_extends_older_copy :
  (forall w fileId filenameHint s,
      processAudio w fileId filenameHint None s
      = Part000.processAudio w fileId filenameHint s) /\
  (forall w message s,
      extractTimecodesFromMessage message = Return None ->
      on_audio w message s = Older.on_audio w message s /\
      forall next,
        on_document w message next s = Older.on_document w message next s).
Proof.
  split; [reflexivity|].
  intros w message s He. split.
  - unfold on_audio, Older.on_audio. rewrite He.
    destruct (audio message); reflexivity.
  - intros next. unfold on_document, Older.on_document. rewrite He.
    destruct (isAudioDocument (document message)); cbn [negb]; [|reflexivity].
    destruct (document message); reflexivity.
Qed.

Lemma bot_extends_older_copy_witness :
  let message := mkMessage (Some (js "my new song")) None (Some song) None in
  extractTimecodesFromMessage message = Return None /\
  on_audio rough message empty_store = Older.on_audio rough message empty_store.
Proof.
  intros message.
  assert (H : extractTimecodesFromMessage message = Return None)
    by (vm_compute; reflexivity).
  split; [exact H|].
  exact (proj1 (proj2 bot_extends_older_copy rough message empty_store H)).
Defined.

(** X15.  The [processAudio] of the older copy, once the directory is
    there, makes its calls in the same one order, each only when those
    before it succeeded, with a transcoder command without start time or
    duration, throws the first failure, and tries both deletions in every
    case. *)
Theorem older_processAudio_calls_in_order :
  forall w fileId filenameHint s,
    succeeds w (length (log s)) (Mkdir (tmpRoot w)) = true ->
    Part000.processAudio w fileId filenameHint s
    = (mkStore
         ((log s ++ [Mkdir (tmpRoot w)])
          ++ attempted w (log s ++ [Mkdir (tmpRoot w)])
               (plan w fileId (input_path w filenameHint s) (output_path w s)
                     [FfmpegSave (voice_command (input_path w filenameHint s) None None)
                                 (output_path w s)])
          ++ [Unlink (input_path w filenameHint s); Unlink (output_path w s)])
         (S (S (drawn s))),
       outcome w (log s ++ [Mkdir (tmpRoot w)])
               (plan w fileId (input_path w filenameHint s) (output_path w s)
                     [FfmpegSave (voice_command (input_path w filenameHint s) None None)
                                 (output_path w s)])).
Proof.
  intros w fileId filenameHint s Hmk.
  rewrite older_processAudio_eq.
  rewrite (@processAudio_eq w fileId filenameHint None s Hmk), try_finally_unlinks.
  rewrite (@body_attempted w fileId _ _ None
             (voice_command (input_path w filenameHint s) None None) _
             (fun s' => eq_refl)).
  cbn [fst snd log drawn]. rewrite <- app_assoc. reflexivity.
Qed.

Lemma older_processAudio_calls_in_order_witness :
  succeeds calm (length (log empty_store)) (Mkdir (tmpRoot calm)) = true /\
  Part000.processAudio calm (js "AgAD") (js "song.mp3") empty_store
  = (mkStore
       [Mkdir (js "/tmp/audio-tools-bot");
        GetFileLink (js "AgAD");
        AxiosGet (js "https://files.example/AgAD");
        Pipeline (js "/tmp/audio-tools-bot/1700000000000-0b5e.mp3");
        SendChatAction (js "record_voice");
        FfmpegSave
          (voice_command (js "/tmp/audio-tools-bot/1700000000000-0b5e.mp3") None None)
          (js "/tmp/audio-tools-bot/1700000000000-0b5e0.ogg");
        ReplyWithVoice (js "/tmp/audio-tools-bot/1700000000000-0b5e0.ogg");
        Unlink (js "/tmp/audio-tools-bot/1700000000000-0b5e.mp3");
        Unlink (js "/tmp/audio-tools-bot/1700000000000-0b5e0.ogg")]
       2,
     Return tt).
Proof.
  split; [reflexivity|].
  rewrite (@older_processAudio_calls_in_order calm (js "AgAD") (js "song.mp3")
             empty_store eq_refl).
  vm_compute. reflexivity.
Defined.

(* ================================================================== *)
(** ** Further properties: audio documents *)

Lemma lower_lower c : lower (lower c) = lower c.
Proof. case_fold. Qed.

Lemma lower_canonicalize c : lower (canonicalize c) = lower c.
Proof. case_fold. Qed.

Lemma map_lower_fixed l : Forall (fun c => lower c = c) l -> map lower l = l.
Proof. induction 1; simpl; congruence. Qed.

Lemma audio_by_name_ci_map (f : code_unit -> code_unit) id uid n mt :
  (forall c, lower (f c) = lower c) ->
  audio_by_name_ci (mkAttachment id uid (Some (map f n)) mt)
  = audio_by_name_ci (mkAttachment id uid (Some n) mt).
Proof.
  intros Hf. unfold audio_by_name_ci. cbn [file_name].
  rewrite map_map. rewrite (map_ext _ lower Hf). reflexivity.
Qed.

(** X16.  [isAudioDocument] does not look at the case of the letters of
    the file name: the name, its lower-case form and its upper-case form
    are classified alike; and any name to which a dot and one of the
    extensions is appended is audio, whatever the MIME type and the rest
    of the name. *)
Theorem isAudioDocument_ignores_case :
  forall id uid n mt,
    isAudioDocument (Some (mkAttachment id uid (Some (map lower n)) mt))
    = isAudioDocument (Some (mkAttachment id uid (Some n) mt)) /\
    isAudioDocument (Some (mkAttachment id uid (Some (map canonicalize n)) mt))
    = isAudioDocument (Some (mkAttachment id uid (Some n) mt)) /\
    (forall ext,
        In ext audio_extensions ->
        isAudioDocument (Some (mkAttachment id uid (Some (n ++ dot :: ext)) mt)) = true /\
        isAudioDocument
          (Some (mkAttachment id uid (Some (n ++ dot :: map canonicalize ext)) mt))
        = true).
Proof.
  intros id uid n mt. split; [|split].
  - rewrite !isAudioDocument_eq. f_equal.
    apply audio_by_name_ci_map. apply lower_lower.
  - rewrite !isAudioDocument_eq. f_equal.
    apply audio_by_name_ci_map. apply lower_canonicalize.
  - intros ext Hext.
    assert (Hk : forall e, map lower e = ext ->
               audio_by_name_ci (mkAttachment id uid (Some (n ++ dot :: e)) mt) = true).
    { intros e He. unfold audio_by_name_ci. cbn [file_name].
      apply existsb_exists. exists ext. split; auto.
      apply endsWith_spec. exists (map lower n).
      rewrite map_app. simpl. rewrite He. reflexivity. }
    split; rewrite isAudioDocument_eq; apply orb_true_iff; right; apply Hk.
    + apply map_lower_fixed. apply extension_lower_case. exact Hext.
    + rewrite map_map. rewrite (map_ext _ lower lower_canonicalize).
      apply map_lower_fixed. apply extension_lower_case. exact Hext.
Qed.

Lemma isAudioDocument_ignores_case_witness :
  In (js "flac") audio_extensions /\
  isAudioDocument
    (Some (mkAttachment (js "BQAD") (js "uniq") (Some (js "take 2" ++ dot :: js "flac"))
                        (Some (js "application/octet-stream")))) = true.
Proof.
  assert (H : In (js "flac") audio_extensions)
    by (right; right; right; left; reflexivity).
  split; [exact H|].
  exact (proj1 (proj2 (proj2 (isAudioDocument_ignores_case (js "BQAD") (js "uniq")
                                (js "take 2") (Some (js "application/octet-stream"))))
                      (js "flac") H)).
Defined.
